(** * Byte-order normalisation of typed array buffers (awk_util.h)

    A shallow embedding of [awkward/cpp/array/awk_util.h]: the six swap
    primitives, the native-order test [isNative] and the eight overloads of
    [makeNative], followed by the properties proved about them.

    Conventions.
    - A C++ integer of width [w] is a [Z]: an unsigned one lies in
      [0, 2^w), a signed one in [-2^(w-1), 2^(w-1)).  Every conversion
      the C++ text performs (integral promotion, usual arithmetic
      conversion, assignment, return) is written out with [uwrap] and
      [swrap].
    - A left shift of a signed operand is the two's-complement one (the
      C++20 rule, and what compilers produced before it): the
      mathematical product reduced into the operand's type.  A right
      shift of a signed operand is arithmetic, which is [Z.shiftr] on
      [Z].
    - Memory is a list of bytes addressed from 0; [buffer_info::ptr] is
      an address into it. *)

From Stdlib Require Import ZArith List String Ascii Bool Lia.
Import ListNotations.

Local Open Scope Z_scope.

(* ================================================================= *)
(** ** Fixed-width integers *)

(** Conversion to an unsigned type of [w] bits. *)
Definition uwrap (w z : Z) : Z := z mod 2 ^ w.

(** Conversion to a signed type of [w] bits (two's complement). *)
Definition swrap (w z : Z) : Z :=
  let u := z mod 2 ^ w in
  if u <? 2 ^ (w - 1) then u else u - 2 ^ w.

Definition urange (w z : Z) : Prop := 0 <= z < 2 ^ w.
Definition srange (w z : Z) : Prop := - 2 ^ (w - 1) <= z < 2 ^ (w - 1).

(* ================================================================= *)
(** ** Swap primitives (awk_util.h, lines 11-39) *)

(** [return (val << 8) | (val >> 8);]  [val] is promoted to [int]; both
    shifts stay inside [int]; the result is converted to [uint16_t]. *)
Definition swap_uint16 (val : Z) : Z :=
  uwrap 16 (Z.lor (Z.shiftl val 8) (Z.shiftr val 8)).

(** [return (val << 8) | ((val >> 8) & 0xFF);]  [val] is promoted to
    [int] with its sign; [val << 8] stays inside [int]; the result is
    converted to [int16_t]. *)
Definition swap_int16 (val : Z) : Z :=
  swrap 16 (Z.lor (Z.shiftl val 8) (Z.land (Z.shiftr val 8) 0xFF)).

(** All operands are [unsigned int]; [0xFF00FF] is an [int] converted to
    [unsigned int]. *)
Definition swap_uint32 (val : Z) : Z :=
  let val := uwrap 32 (Z.lor (Z.land (uwrap 32 (Z.shiftl val 8)) 0xFF00FF00)
                             (Z.land (Z.shiftr val 8) 0xFF00FF)) in
  uwrap 32 (Z.lor (uwrap 32 (Z.shiftl val 16)) (Z.shiftr val 16)).

(** [val << 8] is an [int]; [0xFF00FF00] does not fit [int], so it is an
    [unsigned int] and [val << 8] is converted to it.  [(val >> 8) &
    0xFF00FF] is an [int], converted to [unsigned int] by the [|].  The
    assignment converts back to [int32_t].  The second line is all
    [int]. *)
Definition swap_int32 (val : Z) : Z :=
  let val := swrap 32 (Z.lor (Z.land (uwrap 32 (swrap 32 (Z.shiftl val 8))) 0xFF00FF00)
                             (uwrap 32 (Z.land (Z.shiftr val 8) 0xFF00FF))) in
  swrap 32 (Z.lor (swrap 32 (Z.shiftl val 16)) (Z.land (Z.shiftr val 16) 0xFFFF)).

Definition swap_uint64 (val : Z) : Z :=
  let val := uwrap 64 (Z.lor (Z.land (uwrap 64 (Z.shiftl val 8)) 0xFF00FF00FF00FF00)
                             (Z.land (Z.shiftr val 8) 0x00FF00FF00FF00FF)) in
  let val := uwrap 64 (Z.lor (Z.land (uwrap 64 (Z.shiftl val 16)) 0xFFFF0000FFFF0000)
                             (Z.land (Z.shiftr val 16) 0x0000FFFF0000FFFF)) in
  uwrap 64 (Z.lor (uwrap 64 (Z.shiftl val 32)) (Z.shiftr val 32)).

(** Every mask is [unsigned long long]: each signed shift result is
    converted to it before the [&], and each assignment (and the return)
    converts back to [int64_t]. *)
Definition swap_int64 (val : Z) : Z :=
  let val := swrap 64 (Z.lor (Z.land (uwrap 64 (swrap 64 (Z.shiftl val 8))) 0xFF00FF00FF00FF00)
                             (Z.land (uwrap 64 (Z.shiftr val 8)) 0x00FF00FF00FF00FF)) in
  let val := swrap 64 (Z.lor (Z.land (uwrap 64 (swrap 64 (Z.shiftl val 16))) 0xFFFF0000FFFF0000)
                             (Z.land (uwrap 64 (Z.shiftr val 16)) 0x0000FFFF0000FFFF)) in
  swrap 64 (Z.lor (uwrap 64 (swrap 64 (Z.shiftl val 32)))
                  (Z.land (uwrap 64 (Z.shiftr val 32)) 0xFFFFFFFF)).

(** The bytes of a value, least significant first: byte [k] of [x] is
    bits [8k .. 8k+7] of its two's-complement pattern. *)
Definition byte_at (x : Z) (k : nat) : Z :=
  Z.land (Z.shiftr x (8 * Z.of_nat k)) 0xFF.

Definition bytes_of (n : nat) (x : Z) : list Z :=
  map (byte_at x) (seq 0 n).

(** A run of [n] one bits starting at bit [lo]. *)
Definition band (lo n : Z) : Z := Z.shiftl (Z.ones n) lo.

(* ================================================================= *)
(** ** Outcomes of a call *)

(** A call returns, throws [std::out_of_range] (from [std::string::at]),
    or has undefined behaviour (an access outside memory, an index into
    an empty vector, a division by zero, a signed overflow). *)
Inductive result (A : Type) : Type :=
| Ok (a : A)
| OutOfRange
| Undefined.

Arguments Ok {A} a.
Arguments OutOfRange {A}.
Arguments Undefined {A}.

Definition bind {A B : Type} (r : result A) (k : A -> result B) : result B :=
  match r with
  | Ok a => k a
  | OutOfRange => OutOfRange
  | Undefined => Undefined
  end.

Notation "x <- r ;; k" := (bind r (fun x => k))
  (at level 61, r at next level, right associativity).

(* ================================================================= *)
(** ** Host byte order and memory *)

Inductive endian : Type := LittleEndian | BigEndian.

(** The value of a little-endian byte sequence. *)
Definition le_value (bs : list Z) : Z :=
  fold_right (fun b acc => b + 256 * acc) 0 bs.

(** How the host lays out an [n]-byte integer, and how it reads one. *)
Definition encode (h : endian) (n : nat) (x : Z) : list Z :=
  match h with
  | LittleEndian => bytes_of n x
  | BigEndian => rev (bytes_of n x)
  end.

Definition decode (h : endian) (bs : list Z) : Z :=
  match h with
  | LittleEndian => le_value bs
  | BigEndian => le_value (rev bs)
  end.

Definition memory : Type := list Z.

Definition in_bounds (m : memory) (a : Z) (n : nat) : bool :=
  (0 <=? a) && (a + Z.of_nat n <=? Z.of_nat (List.length m)).

Definition load (h : endian) (n : nat) (m : memory) (a : Z) : result Z :=
  if in_bounds m a n
  then Ok (decode h (firstn n (skipn (Z.to_nat a) m)))
  else Undefined.

Definition store (h : endian) (n : nat) (m : memory) (a v : Z) : result memory :=
  if in_bounds m a n
  then Ok (firstn (Z.to_nat a) m ++ encode h n v ++ skipn (Z.to_nat a + n)%nat m)
  else Undefined.

(* ================================================================= *)
(** ** The array handle *)

(** [py::buffer_info], as [py::array::request()] returns it: the fields
    of pybind11's struct.  [strides] are in bytes. *)
Record buffer_info : Type := {
  ptr : Z;
  itemsize : Z;
  size : Z;
  format : string;
  ndim : Z;
  shape : list Z;
  strides : list Z
}.

(** What a call can observe and change: the array object behind the
    [py::array] handle (its descriptor) and the memory its [ptr] points
    into.  The handle is passed by value but shares the object. *)
Record state : Type := {
  array : buffer_info;
  heap : memory
}.

Definition request (st : state) : buffer_info := array st.

(* ================================================================= *)
(** ** isNative (awk_util.h, lines 41-48) *)

(** [bint.c[0]] for [bint = { 0x01020304 }]: the first byte of the
    host's layout of the 32-bit constant. *)
Definition bint_c0 (h : endian) : Z := nth 0 (encode h 4 0x01020304) 0.

Definition isNative (h : endian) (input : state) : result bool :=
  match format (request input) with
  | EmptyString => OutOfRange
  | String ch _ =>
      Ok (((bint_c0 h =? 1) && negb (Ascii.eqb ch "<"))
          || (negb (bint_c0 h =? 1) && negb (Ascii.eqb ch ">")))
  end.

(* ================================================================= *)
(** ** makeNative (awk_util.h, lines 50-148) *)

(** The element type of an overload: its [sizeof], its signedness and
    the swap primitive the loop body calls. *)
Record elem : Type := {
  width : nat;
  signed : bool;
  swap : Z -> Z
}.

Definition uint16_t : elem := {| width := 2; signed := false; swap := swap_uint16 |}.
Definition int16_t : elem := {| width := 2; signed := true; swap := swap_int16 |}.
Definition uint32_t : elem := {| width := 4; signed := false; swap := swap_uint32 |}.
Definition int32_t : elem := {| width := 4; signed := true; swap := swap_int32 |}.
Definition uint64_t : elem := {| width := 8; signed := false; swap := swap_uint64 |}.
Definition int64_t : elem := {| width := 8; signed := true; swap := swap_int64 |}.

(** [array_ptr[k]] as an rvalue and as the target of an assignment;
    [array_ptr] is [ptr] cast to a pointer to the element type. *)
Definition read_elem (h : endian) (e : elem) (m : memory) (a : Z) : result Z :=
  v <- load h (width e) m a ;;
  Ok (if signed e then swrap (8 * Z.of_nat (width e)) v else v).

Definition write_elem (h : endian) (e : elem) (m : memory) (a v : Z) : result memory :=
  store h (width e) m a v.

(** [ssize_t] is 64 bits wide. *)
Definition ssize_ok (z : Z) : bool := (- 2 ^ 63 <=? z) && (z <? 2 ^ 63).

(** [array_ptr[i * N] = swap(array_ptr[i * N]);] *)
Definition loop_body (h : endian) (e : elem) (array_ptr N i : Z) (m : memory)
  : result memory :=
  if ssize_ok (i * N) then
    let a := array_ptr + (i * N) * Z.of_nat (width e) in
    v <- read_elem h e m a ;;
    write_elem h e m a (swap e v)
  else Undefined.

(** [for (ssize_t i = ...; i < array_info.size; i++) body], with [n]
    iterations left. *)
Fixpoint for_loop (body : Z -> memory -> result memory) (n : nat) (i : Z)
  (m : memory) : result memory :=
  match n with
  | O => Ok m
  | S n' => m' <- body i m ;; for_loop body n' (i + 1) m'
  end.

(** The body shared by the six overloads for 2-, 4- and 8-byte elements;
    they differ in the element type only. *)
Definition makeNative_elem (e : elem) (h : endian) (input : state) : result state :=
  native <- isNative h input ;;
  if (native : bool) then Ok input
  else
    let array_info := request input in
    let array_ptr := ptr array_info in
    shape0 <- match shape array_info with
              | [] => Undefined
              | s :: _ => Ok s
              end ;;
    if itemsize array_info =? 0 then Undefined
    else
      let N := swrap 32 (Z.quot shape0 (itemsize array_info)) in
      m <- for_loop (loop_body h e array_ptr N)
             (Z.to_nat (size array_info)) 0 (heap input) ;;
      Ok {| array := array input; heap := m |}.

(** [void makeNative(py::array_t<std::uint8_t> input) { return; }] and
    its [int8_t] twin. *)
Definition makeNative_uint8 (h : endian) (input : state) : result state := Ok input.
Definition makeNative_int8 (h : endian) (input : state) : result state := Ok input.

Definition makeNative_uint16 := makeNative_elem uint16_t.
Definition makeNative_int16 := makeNative_elem int16_t.
Definition makeNative_uint32 := makeNative_elem uint32_t.
Definition makeNative_int32 := makeNative_elem int32_t.
Definition makeNative_uint64 := makeNative_elem uint64_t.
Definition makeNative_int64 := makeNative_elem int64_t.

(** A one-dimensional view of [n] elements of [w] bytes, [stride] bytes
    apart, starting at address [p] and tagged [fmt]. *)
Definition view1 (p n w stride : Z) (fmt : string) : buffer_info :=
  {| ptr := p; itemsize := w; size := n; format := fmt; ndim := 1;
     shape := [n]; strides := [stride] |}.

(* ================================================================= *)
(** ** Vocabulary of the properties *)

(** The element types that have a swap primitive. *)
Definition elems : list elem :=
  [uint16_t; int16_t; uint32_t; int32_t; uint64_t; int64_t].

(** Each signed element type with the unsigned one of its width. *)
Definition signed_unsigned : list (elem * elem) :=
  [(int16_t, uint16_t); (int32_t, uint32_t); (int64_t, uint64_t)].

Definition bits (e : elem) : Z := 8 * Z.of_nat (width e).

(** The values of an element type. *)
Definition in_range (e : elem) (x : Z) : Prop :=
  if signed e then srange (bits e) x else urange (bits e) x.

(** Calling an overload [n] times in a row on the same array. *)
Fixpoint repeat_call (f : state -> result state) (n : nat) (st : state)
  : result state :=
  match n with
  | O => Ok st
  | S n' => st' <- f st ;; repeat_call f n' st'
  end.

(** The byte offsets, from [ptr], of the elements of a view with the
    given [shape] and [strides]. *)
Fixpoint elem_offsets (shape strides : list Z) : list Z :=
  match shape, strides with
  | n :: shape', s :: strides' =>
      flat_map (fun j => map (Z.add (Z.of_nat j * s)) (elem_offsets shape' strides'))
               (seq 0 (Z.to_nat n))
  | _, _ => [0]
  end.

(** The addresses of the bytes that belong to the elements of a view:
    its data region. *)
Definition data_region (b : buffer_info) : list Z :=
  flat_map (fun o => map (fun j => ptr b + o + Z.of_nat j)
                         (seq 0 (Z.to_nat (itemsize b))))
           (elem_offsets (shape b) (strides b)).

(** The normalizer as the specification words it, for a one-dimensional
    view: for each index from 0 to the element count minus one, the
    element at [base + index * stride] is read, swapped and written back
    to the same address. *)
Definition spec_body (h : endian) (e : elem) (base stride i : Z) (m : memory)
  : result memory :=
  let a := base + i * stride in
  v <- read_elem h e m a ;;
  write_elem h e m a (swap e v).

Definition spec_normalize (e : elem) (h : endian) (input : state) : result state :=
  native <- isNative h input ;;
  if (native : bool) then Ok input
  else
    stride <- match strides (request input) with
              | [] => Undefined
              | s :: _ => Ok s
              end ;;
    m <- for_loop (spec_body h e (ptr (request input)) stride)
           (Z.to_nat (size (request input))) 0 (heap input) ;;
    Ok {| array := array input; heap := m |}.

(** The character that tags a byte order in a format string. *)
Definition tag_char (t : endian) : ascii :=
  match t with
  | LittleEndian => "<"%char
  | BigEndian => ">"%char
  end.

Definition same_order (a b : endian) : bool :=
  match a, b with
  | LittleEndian, LittleEndian => true
  | BigEndian, BigEndian => true
  | _, _ => false
  end.

(** The eight overloads of [makeNative]. *)
Definition makeNative_overloads : list (endian -> state -> result state) :=
  [makeNative_uint8; makeNative_int8;
   makeNative_uint16; makeNative_int16;
   makeNative_uint32; makeNative_int32;
   makeNative_uint64; makeNative_int64].

(** The content of a memory cell. *)
Definition is_byte (b : Z) : Prop := 0 <= b < 256.

(** The value [array_ptr[k]] yields when the bytes of that element are
    [bs]. *)
Definition elem_value (h : endian) (e : elem) (bs : list Z) : Z :=
  if signed e then swrap (8 * Z.of_nat (width e)) (decode h bs) else decode h bs.

(** [N] of the loop: [shape[0] / itemsize] converted to [int].  (A view
    without a [shape[0]] never gets as far as using it.) *)
Definition step_of (b : buffer_info) : Z :=
  swrap 32 (Z.quot (hd 0 (shape b)) (itemsize b)).

(** The addresses the loop reads and writes: the bytes of
    [array_ptr[j * N]] for [0 <= j < size]. *)
Definition visited (e : elem) (b : buffer_info) (a : Z) : Prop :=
  exists j, 0 <= j < size b
    /\ ptr b + j * step_of b * Z.of_nat (width e) <= a
       < ptr b + j * step_of b * Z.of_nat (width e) + Z.of_nat (width e).

(** Memory [m] with the [w] bytes at address [a] in reverse order. *)
Definition rev_at (a w : nat) (m : memory) : memory :=
  firstn a m ++ rev (firstn w (skipn a m)) ++ skipn (a + w) m.

(* ================================================================= *)
(** * Properties *)

Example swap_uint16_ex : swap_uint16 0x0102 = 0x0201.
Proof. reflexivity. Qed.
Example swap_int16_ex : swap_int16 (-2) = -257.
Proof. reflexivity. Qed.
Example swap_int32_ex : swap_int32 (-2147483648) = 128.
Proof. reflexivity. Qed.
Example swap_int64_ex : swap_int64 (-2) = -72057594037927937.
Proof. reflexivity. Qed.
Example swap_uint64_ex : swap_uint64 0x0102030405060708 = 0x0807060504030201.
Proof. reflexivity. Qed.

(* ================================================================= *)
(** ** Conversions between fixed-width types *)

Lemma uwrap_range w z : 0 <= w -> urange w (uwrap w z).
Proof.
  intros Hw. unfold urange, uwrap.
  apply Z.mod_pos_bound, Z.pow_pos_nonneg; lia.
Qed.

Lemma uwrap_id w z : urange w z -> uwrap w z = z.
Proof. intros H. apply Z.mod_small, H. Qed.

Lemma pow2_half w : 0 < w -> 2 ^ w = 2 * 2 ^ (w - 1).
Proof.
  intros Hw. rewrite <- Z.pow_succ_r by lia. f_equal. lia.
Qed.

Lemma swrap_range w z : 0 < w -> srange w (swrap w z).
Proof.
  intros Hw. unfold srange, swrap.
  pose proof (Z.mod_pos_bound z (2 ^ w) ltac:(apply Z.pow_pos_nonneg; lia)) as Hu.
  pose proof (pow2_half w Hw) as Hh.
  destruct (Z.ltb_spec (z mod 2 ^ w) (2 ^ (w - 1))); lia.
Qed.

Lemma uwrap_swrap w z : 0 < w -> uwrap w (swrap w z) = uwrap w z.
Proof.
  intros Hw. unfold uwrap, swrap.
  destruct (Z.ltb_spec (z mod 2 ^ w) (2 ^ (w - 1))).
  - apply Z.mod_mod. apply Z.pow_nonzero; lia.
  - replace (z mod 2 ^ w - 2 ^ w) with (z mod 2 ^ w + (-1) * 2 ^ w) by lia.
    rewrite Z.mod_add by (apply Z.pow_nonzero; lia).
    apply Z.mod_mod. apply Z.pow_nonzero; lia.
Qed.

Lemma swrap_uwrap w z : 0 <= w -> swrap w (uwrap w z) = swrap w z.
Proof.
  intros Hw. unfold uwrap, swrap.
  rewrite Z.mod_mod by (apply Z.pow_nonzero; lia). reflexivity.
Qed.

Lemma swrap_id w z : 0 < w -> srange w z -> swrap w z = z.
Proof.
  intros Hw [Hlo Hhi]. unfold swrap.
  pose proof (pow2_half w Hw) as Hh.
  assert (0 < 2 ^ (w - 1)) by (apply Z.pow_pos_nonneg; lia).
  destruct (Z.lt_ge_cases z 0).
  - replace (z mod 2 ^ w) with (z + 2 ^ w).
    + destruct (Z.ltb_spec (z + 2 ^ w) (2 ^ (w - 1))); lia.
    + apply Z.mod_unique with (q := -1); lia.
  - rewrite Z.mod_small by lia.
    destruct (Z.ltb_spec z (2 ^ (w - 1))); lia.
Qed.

(** A conversion to a signed type is determined by the low [w] bits. *)
Lemma swrap_eq_of_uwrap_eq w a b :
  0 <= w -> uwrap w a = uwrap w b -> swrap w a = swrap w b.
Proof.
  intros Hw H. rewrite <- (swrap_uwrap w a), <- (swrap_uwrap w b) by assumption.
  now rewrite H.
Qed.

(* ================================================================= *)
(** ** Bits of the conversions *)

Lemma testbit_uwrap w z i :
  0 <= w -> Z.testbit (uwrap w z) i = (i <? w) && Z.testbit z i.
Proof. intros. unfold uwrap. now apply Z.testbit_mod_pow2. Qed.

Lemma testbit_negative_high n a i :
  0 <= n -> - 2 ^ n <= a < 0 -> n <= i -> Z.testbit a i = true.
Proof.
  intros Hn Ha Hi.
  replace a with (- (- a)) by lia.
  rewrite Z.bits_opp by lia.
  destruct (Z.eq_dec (Z.pred (- a)) 0) as [E|E].
  - rewrite E, Z.bits_0. reflexivity.
  - rewrite Z.bits_above_log2; [reflexivity | lia |].
    apply Z.log2_lt_pow2; [lia|].
    apply Z.lt_le_trans with (2 ^ n); [lia|].
    apply Z.pow_le_mono_r; lia.
Qed.

Lemma testbit_nonneg_high n a i :
  0 <= n -> 0 <= a < 2 ^ n -> n <= i -> Z.testbit a i = false.
Proof.
  intros Hn Ha Hi.
  rewrite <- (Z.mod_small a (2 ^ n)) by assumption.
  apply Z.mod_pow2_bits_high. lia.
Qed.

(** Sign extension: above bit [w-1] a signed [w]-bit value repeats its
    sign bit. *)
Lemma testbit_sign_extend w a i :
  0 < w -> srange w a -> w - 1 <= i -> Z.testbit a i = Z.testbit a (w - 1).
Proof.
  intros Hw [Hlo Hhi] Hi.
  destruct (Z.lt_ge_cases a 0).
  - rewrite !(testbit_negative_high (w - 1)) by lia. reflexivity.
  - rewrite !(testbit_nonneg_high (w - 1)) by lia. reflexivity.
Qed.

Lemma testbit_swrap w z i :
  0 < w ->
  Z.testbit (swrap w z) i = if i <? w then Z.testbit z i else Z.testbit z (w - 1).
Proof.
  intros Hw.
  assert (Hlow : forall j, j < w -> Z.testbit (swrap w z) j = Z.testbit z j).
  { intros j Hj.
    rewrite <- (Z.mod_pow2_bits_low (swrap w z) w j) by assumption.
    fold (uwrap w (swrap w z)). rewrite uwrap_swrap by assumption.
    apply Z.mod_pow2_bits_low. assumption. }
  destruct (Z.ltb_spec i w).
  - apply Hlow. assumption.
  - rewrite (testbit_sign_extend w) by (auto using swrap_range; lia).
    apply Hlow. lia.
Qed.

Lemma testbit_shiftl a n m :
  Z.testbit (Z.shiftl a n) m = (0 <=? m) && Z.testbit a (m - n).
Proof.
  destruct (Z.leb_spec 0 m).
  - now apply Z.shiftl_spec.
  - now apply Z.testbit_neg_r.
Qed.

Lemma testbit_shiftr a n m :
  Z.testbit (Z.shiftr a n) m = (0 <=? m) && Z.testbit a (m + n).
Proof.
  destruct (Z.leb_spec 0 m).
  - now apply Z.shiftr_spec.
  - now apply Z.testbit_neg_r.
Qed.

(* ================================================================= *)
(** ** Bits of the masks *)

Lemma testbit_band lo n i :
  0 <= n -> Z.testbit (band lo n) i = (0 <=? i) && ((lo <=? i) && (i <? lo + n)).
Proof.
  intros Hn. unfold band. rewrite testbit_shiftl, Z.testbit_ones by assumption.
  destruct (Z.leb_spec 0 i), (Z.leb_spec 0 (i - lo)), (Z.leb_spec lo i),
    (Z.ltb_spec (i - lo) n), (Z.ltb_spec i (lo + n));
    cbn [andb]; try reflexivity; lia.
Qed.

Lemma mask_FF : 0xFF = band 0 8. Proof. reflexivity. Qed.
Lemma mask_FFFF : 0xFFFF = band 0 16. Proof. reflexivity. Qed.
Lemma mask_FFFFFFFF : 0xFFFFFFFF = band 0 32. Proof. reflexivity. Qed.
Lemma mask_FF00FF : 0xFF00FF = Z.lor (band 0 8) (band 16 8).
Proof. reflexivity. Qed.
Lemma mask_FF00FF00 : 0xFF00FF00 = Z.lor (band 8 8) (band 24 8).
Proof. reflexivity. Qed.
Lemma mask_00FF_64 :
  0x00FF00FF00FF00FF
  = Z.lor (Z.lor (band 0 8) (band 16 8)) (Z.lor (band 32 8) (band 48 8)).
Proof. reflexivity. Qed.
Lemma mask_FF00_64 :
  0xFF00FF00FF00FF00
  = Z.lor (Z.lor (band 8 8) (band 24 8)) (Z.lor (band 40 8) (band 56 8)).
Proof. reflexivity. Qed.
Lemma mask_0000FFFF_64 : 0x0000FFFF0000FFFF = Z.lor (band 0 16) (band 32 16).
Proof. reflexivity. Qed.
Lemma mask_FFFF0000_64 : 0xFFFF0000FFFF0000 = Z.lor (band 16 16) (band 48 16).
Proof. reflexivity. Qed.

(** Reduce an equation between bit-level expressions to its bits, and
    decide it by cases on where the bit index falls. *)
Ltac split_cmp :=
  repeat match goal with
    | |- context [?a <? ?b] => destruct (Z.ltb_spec a b); try lia
    | |- context [?a <=? ?b] => destruct (Z.leb_spec a b); try lia
    end.

Ltac bit_rewrite :=
  rewrite ?mask_FF00_64, ?mask_00FF_64, ?mask_FFFF0000_64, ?mask_0000FFFF_64,
    ?mask_FF00FF00, ?mask_FF00FF, ?mask_FFFFFFFF, ?mask_FFFF, ?mask_FF;
  repeat first
    [ rewrite uwrap_swrap by lia
    | rewrite Z.lor_spec
    | rewrite Z.land_spec
    | rewrite testbit_shiftl
    | rewrite testbit_shiftr
    | rewrite testbit_uwrap by lia
    | rewrite testbit_swrap by lia
    | rewrite testbit_band by lia ].

Ltac drop_negative_bits :=
  repeat match goal with
    | |- context [Z.testbit ?a ?j] => rewrite (Z.testbit_neg_r a j) by lia
    end.

Ltac bool_simpl :=
  cbn [andb orb negb];
  rewrite ?andb_true_r, ?andb_false_r, ?orb_false_r, ?orb_true_r;
  cbn [andb orb negb].

Ltac bitwise :=
  apply Z.bits_inj'; intros ?i ?Hi; bit_rewrite;
  split_cmp; drop_negative_bits; bool_simpl;
  first [ reflexivity | f_equal; lia ].

Ltac byte_offsets :=
  repeat match goal with
    | |- context [8 * Z.of_nat ?k] =>
        let v := eval compute in (8 * Z.of_nat k) in
        change (8 * Z.of_nat k) with v
    end.

Ltac byte_goal := unfold byte_at; byte_offsets; bitwise.

(** Prove [forall k < n, byte k of (level v) = byte (nth k perm) of v]
    one byte at a time. *)
Tactic Notation "level_proof" integer(n) ident(k) :=
  do n (destruct k as [|k]; [cbn [nth]; byte_goal|]); lia.

(* ================================================================= *)
(** ** Bytes of the swap primitives *)

Lemma u16_level v k :
  (k < 2)%nat ->
  byte_at (uwrap 16 (Z.lor (Z.shiftl (uwrap 16 v) 8) (Z.shiftr (uwrap 16 v) 8))) k
  = byte_at (uwrap 16 v) (nth k [1; 0]%nat 0%nat).
Proof. intros Hk. level_proof 2 k. Qed.

Lemma s16_level v k :
  (k < 2)%nat ->
  byte_at (swrap 16 (Z.lor (Z.shiftl v 8) (Z.land (Z.shiftr v 8) 0xFF))) k
  = byte_at v (nth k [1; 0]%nat 0%nat).
Proof. intros Hk. level_proof 2 k. Qed.

Lemma u32_level1 v k :
  (k < 4)%nat ->
  byte_at (uwrap 32 (Z.lor (Z.land (uwrap 32 (Z.shiftl v 8)) 0xFF00FF00)
                           (Z.land (Z.shiftr v 8) 0xFF00FF))) k
  = byte_at v (nth k [1; 0; 3; 2]%nat 0%nat).
Proof. intros Hk. level_proof 4 k. Qed.

Lemma u32_level2 v k :
  (k < 4)%nat ->
  byte_at (uwrap 32 (Z.lor (uwrap 32 (Z.shiftl (uwrap 32 v) 16))
                           (Z.shiftr (uwrap 32 v) 16))) k
  = byte_at (uwrap 32 v) (nth k [2; 3; 0; 1]%nat 0%nat).
Proof. intros Hk. level_proof 4 k. Qed.

Lemma s32_level1 v k :
  (k < 4)%nat ->
  byte_at (swrap 32 (Z.lor (Z.land (uwrap 32 (swrap 32 (Z.shiftl v 8))) 0xFF00FF00)
                           (uwrap 32 (Z.land (Z.shiftr v 8) 0xFF00FF)))) k
  = byte_at v (nth k [1; 0; 3; 2]%nat 0%nat).
Proof. intros Hk. level_proof 4 k. Qed.

Lemma s32_level2 v k :
  (k < 4)%nat ->
  byte_at (swrap 32 (Z.lor (swrap 32 (Z.shiftl v 16))
                           (Z.land (Z.shiftr v 16) 0xFFFF))) k
  = byte_at v (nth k [2; 3; 0; 1]%nat 0%nat).
Proof. intros Hk. level_proof 4 k. Qed.

Lemma u64_level1 v k :
  (k < 8)%nat ->
  byte_at (uwrap 64 (Z.lor (Z.land (uwrap 64 (Z.shiftl v 8)) 0xFF00FF00FF00FF00)
                           (Z.land (Z.shiftr v 8) 0x00FF00FF00FF00FF))) k
  = byte_at v (nth k [1; 0; 3; 2; 5; 4; 7; 6]%nat 0%nat).
Proof. intros Hk. level_proof 8 k. Qed.

Lemma u64_level2 v k :
  (k < 8)%nat ->
  byte_at (uwrap 64 (Z.lor (Z.land (uwrap 64 (Z.shiftl v 16)) 0xFFFF0000FFFF0000)
                           (Z.land (Z.shiftr v 16) 0x0000FFFF0000FFFF))) k
  = byte_at v (nth k [2; 3; 0; 1; 6; 7; 4; 5]%nat 0%nat).
Proof. intros Hk. level_proof 8 k. Qed.

Lemma u64_level3 v k :
  (k < 8)%nat ->
  byte_at (uwrap 64 (Z.lor (uwrap 64 (Z.shiftl (uwrap 64 v) 32))
                           (Z.shiftr (uwrap 64 v) 32))) k
  = byte_at (uwrap 64 v) (nth k [4; 5; 6; 7; 0; 1; 2; 3]%nat 0%nat).
Proof. intros Hk. level_proof 8 k. Qed.

Lemma s64_level1 v k :
  (k < 8)%nat ->
  byte_at (swrap 64 (Z.lor (Z.land (uwrap 64 (swrap 64 (Z.shiftl v 8))) 0xFF00FF00FF00FF00)
                           (Z.land (uwrap 64 (Z.shiftr v 8)) 0x00FF00FF00FF00FF))) k
  = byte_at v (nth k [1; 0; 3; 2; 5; 4; 7; 6]%nat 0%nat).
Proof. intros Hk. level_proof 8 k. Qed.

Lemma s64_level2 v k :
  (k < 8)%nat ->
  byte_at (swrap 64 (Z.lor (Z.land (uwrap 64 (swrap 64 (Z.shiftl v 16))) 0xFFFF0000FFFF0000)
                           (Z.land (uwrap 64 (Z.shiftr v 16)) 0x0000FFFF0000FFFF))) k
  = byte_at v (nth k [2; 3; 0; 1; 6; 7; 4; 5]%nat 0%nat).
Proof. intros Hk. level_proof 8 k. Qed.

Lemma s64_level3 v k :
  (k < 8)%nat ->
  byte_at (swrap 64 (Z.lor (uwrap 64 (swrap 64 (Z.shiftl v 32)))
                           (Z.land (uwrap 64 (Z.shiftr v 32)) 0xFFFFFFFF))) k
  = byte_at v (nth k [4; 5; 6; 7; 0; 1; 2; 3]%nat 0%nat).
Proof. intros Hk. level_proof 8 k. Qed.

Lemma swap_uint16_byte x k :
  urange 16 x -> (k < 2)%nat -> byte_at (swap_uint16 x) k = byte_at x (1 - k).
Proof.
  intros Hx Hk. unfold swap_uint16.
  rewrite <- (uwrap_id 16 x Hx) at 1 2 3.
  rewrite u16_level, (uwrap_id 16 x Hx) by assumption.
  do 2 (destruct k as [|k]; [reflexivity|]); lia.
Qed.

Lemma swap_int16_byte x k :
  (k < 2)%nat -> byte_at (swap_int16 x) k = byte_at x (1 - k).
Proof.
  intros Hk. unfold swap_int16. rewrite s16_level by assumption.
  do 2 (destruct k as [|k]; [reflexivity|]); lia.
Qed.

Lemma swap_uint32_byte x k :
  (k < 4)%nat -> byte_at (swap_uint32 x) k = byte_at x (3 - k).
Proof.
  intros Hk. unfold swap_uint32. lazy zeta.
  rewrite u32_level2 by assumption.
  assert (Hk' : (nth k [2; 3; 0; 1] 0 < 4)%nat)
    by (do 4 (destruct k as [|k]; [cbn; lia|]); lia).
  rewrite u32_level1 by assumption.
  do 4 (destruct k as [|k]; [reflexivity|]); lia.
Qed.

Lemma swap_int32_byte x k :
  (k < 4)%nat -> byte_at (swap_int32 x) k = byte_at x (3 - k).
Proof.
  intros Hk. unfold swap_int32. lazy zeta.
  rewrite s32_level2 by assumption.
  assert (Hk' : (nth k [2; 3; 0; 1] 0 < 4)%nat)
    by (do 4 (destruct k as [|k]; [cbn; lia|]); lia).
  rewrite s32_level1 by assumption.
  do 4 (destruct k as [|k]; [reflexivity|]); lia.
Qed.

Lemma swap_uint64_byte x k :
  (k < 8)%nat -> byte_at (swap_uint64 x) k = byte_at x (7 - k).
Proof.
  intros Hk. unfold swap_uint64. lazy zeta.
  rewrite u64_level3 by assumption.
  assert (Hk3 : (nth k [4; 5; 6; 7; 0; 1; 2; 3] 0 < 8)%nat)
    by (do 8 (destruct k as [|k]; [cbn; lia|]); lia).
  rewrite u64_level2 by assumption.
  assert (Hk2 : (nth (nth k [4; 5; 6; 7; 0; 1; 2; 3] 0)
                     [2; 3; 0; 1; 6; 7; 4; 5] 0 < 8)%nat)
    by (do 8 (destruct k as [|k]; [cbn; lia|]); lia).
  rewrite u64_level1 by assumption.
  do 8 (destruct k as [|k]; [reflexivity|]); lia.
Qed.

Lemma swap_int64_byte x k :
  (k < 8)%nat -> byte_at (swap_int64 x) k = byte_at x (7 - k).
Proof.
  intros Hk. unfold swap_int64. lazy zeta.
  rewrite s64_level3 by assumption.
  assert (Hk3 : (nth k [4; 5; 6; 7; 0; 1; 2; 3] 0 < 8)%nat)
    by (do 8 (destruct k as [|k]; [cbn; lia|]); lia).
  rewrite s64_level2 by assumption.
  assert (Hk2 : (nth (nth k [4; 5; 6; 7; 0; 1; 2; 3] 0)
                     [2; 3; 0; 1; 6; 7; 4; 5] 0 < 8)%nat)
    by (do 8 (destruct k as [|k]; [cbn; lia|]); lia).
  rewrite s64_level1 by assumption.
  do 8 (destruct k as [|k]; [reflexivity|]); lia.
Qed.

(* ================================================================= *)
(** ** Byte sequences and the values they stand for *)

Lemma bytes_of_length n x : List.length (bytes_of n x) = n.
Proof. unfold bytes_of. now rewrite length_map, length_seq. Qed.

Lemma byte_at_mod x k :
  byte_at x k = (x / 2 ^ (8 * Z.of_nat k)) mod 2 ^ 8.
Proof.
  unfold byte_at. change 0xFF with (Z.ones 8).
  rewrite Z.land_ones, Z.shiftr_div_pow2 by lia. reflexivity.
Qed.

Lemma byte_at_range x k : 0 <= byte_at x k < 256.
Proof.
  rewrite byte_at_mod. change 256 with (2 ^ 8).
  apply Z.mod_pos_bound. lia.
Qed.

(** The value of the bytes [s .. s+n-1] of [x]. *)
Lemma le_value_bytes_from n : forall s x,
  le_value (map (byte_at x) (seq s n))
  = (x / 2 ^ (8 * Z.of_nat s)) mod 2 ^ (8 * Z.of_nat n).
Proof.
  induction n as [|n IH]; intros s x.
  - cbn. now rewrite Z.mod_1_r.
  - cbn [seq map le_value fold_right]. fold (le_value (map (byte_at x) (seq (S s) n))).
    rewrite IH, byte_at_mod.
    replace (8 * Z.of_nat (S n)) with (8 + 8 * Z.of_nat n) by lia.
    rewrite Z.pow_add_r by lia.
    rewrite Z.rem_mul_r by (try apply Z.pow_pos_nonneg; lia).
    replace (8 * Z.of_nat (S s)) with (8 * Z.of_nat s + 8) by lia.
    rewrite Z.pow_add_r, <- Z.div_div by (try apply Z.pow_pos_nonneg; lia).
    reflexivity.
Qed.

Lemma le_value_bytes_of n x :
  le_value (bytes_of n x) = uwrap (8 * Z.of_nat n) x.
Proof.
  unfold bytes_of, uwrap. rewrite le_value_bytes_from.
  now rewrite Z.mul_0_r, Z.pow_0_r, Z.div_1_r.
Qed.

Lemma byte_at_uwrap n x k :
  (k < n)%nat -> byte_at (uwrap (8 * Z.of_nat n) x) k = byte_at x k.
Proof.
  intros Hk. unfold byte_at.
  apply Z.bits_inj'; intros i Hi.
  rewrite !Z.land_spec, !testbit_shiftr, testbit_uwrap by lia.
  change 0xFF with (Z.ones 8). rewrite Z.testbit_ones by lia.
  destruct (Z.ltb_spec i 8); [|now rewrite !andb_false_r].
  destruct (Z.ltb_spec (i + 8 * Z.of_nat k) (8 * Z.of_nat n)); [|lia].
  reflexivity.
Qed.

Lemma bytes_of_ext n x y :
  (forall k, (k < n)%nat -> byte_at x k = byte_at y k) ->
  bytes_of n x = bytes_of n y.
Proof.
  intros H. unfold bytes_of. apply map_ext_in.
  intros k Hk. apply in_seq in Hk. apply H. lia.
Qed.

Lemma bytes_of_uwrap n x : bytes_of n (uwrap (8 * Z.of_nat n) x) = bytes_of n x.
Proof. apply bytes_of_ext. intros k Hk. now apply byte_at_uwrap. Qed.

(** The bytes of [y] are those of [x] in reverse order as soon as byte
    [k] of [y] is byte [n-1-k] of [x]. *)
Lemma bytes_of_rev n x y :
  (forall k, (k < n)%nat -> byte_at y k = byte_at x (n - 1 - k)) ->
  bytes_of n y = rev (bytes_of n x).
Proof.
  intros H. apply nth_ext with (d := 0) (d' := 0).
  - now rewrite length_rev, !bytes_of_length.
  - intros k Hk. rewrite bytes_of_length in Hk.
    rewrite rev_nth by (now rewrite bytes_of_length).
    rewrite bytes_of_length. unfold bytes_of.
    rewrite (nth_indep _ 0 (byte_at y 0%nat)) by (rewrite length_map, length_seq; lia).
    rewrite (nth_indep _ 0 (byte_at x 0%nat)) by (rewrite length_map, length_seq; lia).
    rewrite !map_nth, !seq_nth by lia. cbn [Nat.add].
    rewrite H by assumption. f_equal. lia.
Qed.

(* ================================================================= *)
(** ** The swap primitives, uniformly over the element types *)

(** Case analysis over the six element types. *)
Ltac each_elem H :=
  unfold elems in H; cbn [In] in H;
  repeat (destruct H as [H|H]; [subst|]); [..|contradiction].

Ltac elem_simpl :=
  cbn [signed width swap uint16_t int16_t uint32_t int32_t uint64_t int64_t] in *.

Lemma swap_in_range e x : In e elems -> in_range e (swap e x).
Proof.
  intros He. each_elem He; unfold in_range, bits; elem_simpl;
    first [ apply swrap_range; lia | apply uwrap_range; lia ].
Qed.

Lemma swap_byte e x k :
  In e elems -> in_range e x -> (k < width e)%nat ->
  byte_at (swap e x) k = byte_at x (width e - 1 - k).
Proof.
  intros He Hx Hk.
  each_elem He; unfold in_range, bits in Hx; elem_simpl.
  - now apply swap_uint16_byte.
  - now apply swap_int16_byte.
  - now apply swap_uint32_byte.
  - now apply swap_int32_byte.
  - now apply swap_uint64_byte.
  - now apply swap_int64_byte.
Qed.

Lemma swap_bytes e x :
  In e elems -> in_range e x ->
  bytes_of (width e) (swap e x) = rev (bytes_of (width e) x).
Proof.
  intros He Hx. apply bytes_of_rev. intros k Hk. now apply swap_byte.
Qed.

Lemma bits_pos e : In e elems -> 0 < bits e.
Proof. intros He. each_elem He; unfold bits; elem_simpl; lia. Qed.

(** Two values of one element type with the same bytes are equal. *)
Lemma in_range_bytes_inj e a b :
  In e elems -> in_range e a -> in_range e b ->
  bytes_of (width e) a = bytes_of (width e) b -> a = b.
Proof.
  intros He Ha Hb Hab.
  pose proof (bits_pos e He) as Hw.
  apply (f_equal le_value) in Hab. rewrite !le_value_bytes_of in Hab.
  fold (bits e) in Hab. unfold in_range in Ha, Hb.
  destruct (signed e).
  - rewrite <- (swrap_id (bits e) a), <- (swrap_id (bits e) b) by assumption.
    apply swrap_eq_of_uwrap_eq; [lia | assumption].
  - now rewrite <- (uwrap_id (bits e) a), <- (uwrap_id (bits e) b).
Qed.

Lemma swap_swap e x : In e elems -> in_range e x -> swap e (swap e x) = x.
Proof.
  intros He Hx.
  apply (in_range_bytes_inj e); auto using swap_in_range.
  rewrite !swap_bytes by auto using swap_in_range.
  apply rev_involutive.
Qed.

Lemma signed_unsigned_elems s u :
  In (s, u) signed_unsigned ->
  In s elems /\ In u elems /\ width u = width s /\ signed s = true /\ signed u = false.
Proof.
  unfold signed_unsigned. cbn [In]. intros H.
  repeat (destruct H as [H|H]; [inversion H; subst; clear H|]);
    [..|contradiction]; unfold elems; cbn; intuition auto.
Qed.

Lemma swap_signed_unsigned s u x :
  In (s, u) signed_unsigned -> in_range s x ->
  uwrap (bits s) (swap s x) = swap u (uwrap (bits s) x).
Proof.
  intros Hsu Hx.
  destruct (signed_unsigned_elems s u Hsu) as (Hs & Hu & Hw & Hss & Hsu').
  pose proof (bits_pos s Hs) as Hb.
  assert (Hbits : bits u = bits s) by (unfold bits; now rewrite Hw).
  assert (Hux : in_range u (uwrap (bits s) x)).
  { unfold in_range. rewrite Hsu', Hbits. apply uwrap_range. lia. }
  apply (in_range_bytes_inj u); auto using swap_in_range.
  - unfold in_range. rewrite Hsu', Hbits. apply uwrap_range. lia.
  - rewrite Hw. unfold bits at 1. rewrite bytes_of_uwrap.
    rewrite swap_bytes by assumption.
    rewrite <- Hw, swap_bytes by assumption.
    rewrite Hw. unfold bits. now rewrite bytes_of_uwrap.
Qed.

(** C2.  For each of the six swap primitives and every value [x] of its
    type, the result is a value of the same type whose bytes are those
    of [x] in reverse order: byte 0 exchanged with the last byte, byte 1
    with the one before it, and so on. *)
Theorem swap_reverses_bytes (e : elem) (x : Z) :
  In e elems -> in_range e x ->
  in_range e (swap e x)
  /\ bytes_of (width e) (swap e x) = rev (bytes_of (width e) x).
Proof.
  intros He Hx. split; [now apply swap_in_range | now apply swap_bytes].
Qed.

Lemma swap_reverses_bytes_witness :
  in_range uint32_t (swap uint32_t 0x01020304)
  /\ bytes_of (width uint32_t) (swap uint32_t 0x01020304)
     = rev (bytes_of (width uint32_t) 0x01020304).
Proof.
  apply (swap_reverses_bytes uint32_t 0x01020304).
  - unfold elems. cbn [In]. auto.
  - unfold in_range, bits, urange. elem_simpl. lia.
Defined.

(** C3.  Each of the six swap primitives is an involution on the values
    of its type: swapping twice gives the value back.  This covers 0,
    -1, and the least and the greatest value of each type. *)
Theorem swap_involution (e : elem) (x : Z) :
  In e elems -> in_range e x -> swap e (swap e x) = x.
Proof. apply swap_swap. Qed.

Lemma swap_involution_witness :
  swap int64_t (swap int64_t (-9223372036854775808)) = -9223372036854775808.
Proof.
  apply (swap_involution int64_t (-9223372036854775808)).
  - unfold elems. cbn [In]. auto 10.
  - unfold in_range, bits, srange. elem_simpl. lia.
Defined.

(** C4.  For each width, the signed primitive computes the same bit
    pattern as the unsigned one: read as an unsigned value, the result
    of the signed primitive on [x] is the result of the unsigned
    primitive on [x] read as an unsigned value; equivalently, the signed
    result is the unsigned result reinterpreted as signed. *)
Theorem signed_swap_same_bit_pattern (s u : elem) (x : Z) :
  In (s, u) signed_unsigned -> in_range s x ->
  uwrap (bits s) (swap s x) = swap u (uwrap (bits s) x)
  /\ swap s x = swrap (bits s) (swap u (uwrap (bits s) x)).
Proof.
  intros Hsu Hx.
  pose proof (swap_signed_unsigned s u x Hsu Hx) as H.
  split; [assumption|].
  destruct (signed_unsigned_elems s u Hsu) as (Hs & _ & _ & Hss & _).
  pose proof (bits_pos s Hs) as Hb.
  pose proof (swap_in_range s x Hs) as Hr. unfold in_range in Hr. rewrite Hss in Hr.
  rewrite <- H, swrap_uwrap by lia.
  symmetry. now apply swrap_id.
Qed.

Lemma signed_swap_same_bit_pattern_witness :
  uwrap (bits int16_t) (swap int16_t (-32768))
  = swap uint16_t (uwrap (bits int16_t) (-32768))
  /\ swap int16_t (-32768)
     = swrap (bits int16_t) (swap uint16_t (uwrap (bits int16_t) (-32768))).
Proof.
  apply (signed_swap_same_bit_pattern int16_t uint16_t (-32768)).
  - unfold signed_unsigned. cbn [In]. auto.
  - unfold in_range, bits, srange. elem_simpl. lia.
Defined.

(* ================================================================= *)
(** ** isNative *)

Lemma bint_c0_big h : bint_c0 h = 1 <-> h = BigEndian.
Proof. destruct h; cbn; split; intros H; (reflexivity || discriminate || lia). Qed.

Lemma isNative_tagged h st tag rest :
  format (array st) = String (tag_char tag) rest ->
  isNative h st = Ok (same_order tag h).
Proof.
  intros H. unfold isNative, request. rewrite H.
  destruct h, tag; reflexivity.
Qed.

(** A format that starts with neither ['<'] nor ['>'] counts as native
    on every host. *)
Lemma isNative_untagged h st ch rest :
  format (array st) = String ch rest ->
  ch <> "<"%char -> ch <> ">"%char ->
  isNative h st = Ok true.
Proof.
  intros H Hlt Hgt. unfold isNative, request. rewrite H.
  apply Ascii.eqb_neq in Hlt, Hgt. rewrite Hlt, Hgt.
  destruct h; reflexivity.
Qed.

(** C5.  The host order is read off the first byte of the host's layout
    of [0x01020304], which is 1 exactly on a big-endian host.  A buffer
    tagged ['<'] is native exactly on a little-endian host and a buffer
    tagged ['>'] exactly on a big-endian host; a tag that differs from
    the host order gives [false]. *)
Theorem isNative_decision_table (h : endian) (st : state) (tag : endian)
  (rest : string) :
  format (array st) = String (tag_char tag) rest ->
  bint_c0 h = nth 0 (encode h 4 0x01020304) 0
  /\ (bint_c0 h = 1 <-> h = BigEndian)
  /\ isNative h st = Ok (same_order tag h).
Proof.
  intros H. split; [reflexivity|]. split; [apply bint_c0_big|].
  now apply isNative_tagged with (rest := rest).
Qed.

Lemma isNative_decision_table_witness :
  bint_c0 BigEndian = nth 0 (encode BigEndian 4 0x01020304) 0
  /\ (bint_c0 BigEndian = 1 <-> BigEndian = BigEndian)
  /\ isNative BigEndian {| array := view1 0 3 2 2 "<H"; heap := [1; 2; 3; 4; 5; 6] |}
     = Ok (same_order LittleEndian BigEndian).
Proof.
  apply (isNative_decision_table BigEndian
           {| array := view1 0 3 2 2 "<H"; heap := [1; 2; 3; 4; 5; 6] |}
           LittleEndian "H").
  reflexivity.
Defined.

(* ================================================================= *)
(** ** makeNative: what every call preserves *)

Lemma encode_length h n v : List.length (encode h n v) = n.
Proof.
  destruct h; cbn [encode]; now rewrite ?length_rev, bytes_of_length.
Qed.

Lemma store_length h n m a v m' :
  store h n m a v = Ok m' -> List.length m' = List.length m.
Proof.
  unfold store, in_bounds. intros H.
  destruct (Z.leb_spec 0 a); [|discriminate].
  destruct (Z.leb_spec (a + Z.of_nat n) (Z.of_nat (List.length m))); [|discriminate].
  cbn [andb] in H. injection H as <-.
  rewrite !length_app, encode_length, length_firstn, length_skipn. lia.
Qed.

Lemma loop_body_length h e p N i m m' :
  loop_body h e p N i m = Ok m' -> List.length m' = List.length m.
Proof.
  unfold loop_body, read_elem, write_elem. intros H.
  destruct (ssize_ok (i * N)); [|discriminate].
  destruct (load h (width e) m _); cbn [bind] in H; try discriminate.
  now apply store_length in H.
Qed.

Lemma for_loop_length body (Hb : forall i m m', body i m = Ok m' ->
                                  List.length m' = List.length m) n :
  forall i m m', for_loop body n i m = Ok m' -> List.length m' = List.length m.
Proof.
  induction n as [|n IH]; intros i m m' H; cbn [for_loop] in H.
  - now injection H as <-.
  - destruct (body i m) as [m1| |] eqn:E; cbn [bind] in H; try discriminate.
    rewrite (IH _ _ _ H). now apply Hb with (i := i).
Qed.

(** A call that returns leaves the descriptor as it was and the memory
    at its size: the only thing it can change is the content of
    bytes. *)
Lemma makeNative_elem_frame e h st st' :
  makeNative_elem e h st = Ok st' ->
  array st' = array st /\ List.length (heap st') = List.length (heap st).
Proof.
  unfold makeNative_elem. intros H.
  destruct (isNative h st) as [[|]| |]; cbn [bind] in H; try discriminate.
  - injection H as <-. auto.
  - destruct (shape (request st)); cbn [bind] in H; try discriminate.
    destruct (itemsize (request st) =? 0); try discriminate.
    destruct (for_loop _ _ _ _) as [m| |] eqn:E; cbn [bind] in H; try discriminate.
    injection H as <-. cbn [array heap]. split; [reflexivity|].
    revert E. apply for_loop_length. intros i m0 m1. apply loop_body_length.
Qed.

Lemma for_loop_ext body1 body2 n :
  forall i m,
    (forall j m0, i <= j < i + Z.of_nat n -> body1 j m0 = body2 j m0) ->
    for_loop body1 n i m = for_loop body2 n i m.
Proof.
  induction n as [|n IH]; intros i m H; cbn [for_loop]; [reflexivity|].
  rewrite H by lia. destruct (body2 i m); cbn [bind]; try reflexivity.
  apply IH. intros j m0 Hj. apply H. lia.
Qed.

(** The code steps by [N = shape[0] / itemsize] elements where the
    specification steps by [strides[0]] bytes: the two agree when
    [N * sizeof(T)] is the stride. *)
Lemma makeNative_elem_spec e h st s0 sh str strs :
  shape (array st) = s0 :: sh ->
  strides (array st) = str :: strs ->
  itemsize (array st) <> 0 ->
  0 <= swrap 32 (Z.quot s0 (itemsize (array st))) ->
  size (array st) * swrap 32 (Z.quot s0 (itemsize (array st))) < 2 ^ 63 ->
  swrap 32 (Z.quot s0 (itemsize (array st))) * Z.of_nat (width e) = str ->
  makeNative_elem e h st = spec_normalize e h st.
Proof.
  intros Hsh Hstr Hi HN Hsz Hstride.
  unfold makeNative_elem, spec_normalize, request.
  destruct (isNative h st) as [[|]| |]; cbn [bind]; try reflexivity.
  rewrite Hsh, Hstr. cbn [bind].
  apply Z.eqb_neq in Hi. rewrite Hi.
  set (N := swrap 32 (Z.quot s0 (itemsize (array st)))) in *.
  rewrite (for_loop_ext (loop_body h e (ptr (array st)) N)
                        (spec_body h e (ptr (array st)) str)); [reflexivity|].
  intros j m0 Hj. unfold loop_body, spec_body, ssize_ok.
  assert (Hlo : - 2 ^ 63 <= j * N) by nia.
  assert (Hhi : j * N < 2 ^ 63).
  { assert (Hj' : j < size (array st)) by lia. nia. }
  apply Z.leb_le in Hlo. apply Z.ltb_lt in Hhi. rewrite Hlo, Hhi. cbn [andb].
  subst str. now rewrite Z.mul_assoc.
Qed.

(* ================================================================= *)
(** ** makeNative: one element in place *)

Lemma le_value_range bs :
  Forall is_byte bs -> 0 <= le_value bs < 2 ^ (8 * Z.of_nat (List.length bs)).
Proof.
  induction 1 as [|b bs Hb _ IH]; cbn [le_value fold_right List.length].
  - cbn. lia.
  - fold (le_value bs).
    replace (8 * Z.of_nat (S (List.length bs)))
      with (8 + 8 * Z.of_nat (List.length bs)) by lia.
    rewrite Z.pow_add_r by lia. change (2 ^ 8) with 256.
    unfold is_byte in Hb. nia.
Qed.

Lemma byte_at_cons_0 b r : is_byte b -> byte_at (b + 256 * r) 0 = b.
Proof.
  intros Hb. rewrite byte_at_mod. change (8 * Z.of_nat 0) with 0.
  rewrite Z.pow_0_r, Z.div_1_r. change (2 ^ 8) with 256.
  replace (b + 256 * r) with (b + r * 256) by lia.
  rewrite Z.mod_add by lia. now apply Z.mod_small.
Qed.

Lemma byte_at_cons_S b r k :
  is_byte b -> byte_at (b + 256 * r) (S k) = byte_at r k.
Proof.
  intros Hb. rewrite !byte_at_mod.
  replace (8 * Z.of_nat (S k)) with (8 + 8 * Z.of_nat k) by lia.
  rewrite Z.pow_add_r, <- Z.div_div by (try apply Z.pow_pos_nonneg; lia).
  change (2 ^ 8) with 256.
  replace (b + 256 * r) with (b + r * 256) by lia.
  rewrite Z.div_add by lia.
  rewrite (Z.div_small b 256) by assumption. now rewrite Z.add_0_l.
Qed.

(** Reading back the bytes of the value of a byte sequence. *)
Lemma bytes_of_le_value bs :
  Forall is_byte bs -> bytes_of (List.length bs) (le_value bs) = bs.
Proof.
  induction 1 as [|b bs Hb _ IH]; [reflexivity|].
  unfold bytes_of in *. cbn [List.length seq map le_value fold_right].
  fold (le_value bs). rewrite byte_at_cons_0 by assumption. f_equal.
  rewrite <- seq_shift, map_map. rewrite <- IH at 2.
  apply map_ext. intros k. now apply byte_at_cons_S.
Qed.

Lemma bytes_of_swrap n z :
  (0 < n)%nat -> bytes_of n (swrap (8 * Z.of_nat n) z) = bytes_of n z.
Proof.
  intros Hn. rewrite <- (bytes_of_uwrap n (swrap _ z)), uwrap_swrap by lia.
  apply bytes_of_uwrap.
Qed.

Lemma width_pos e : In e elems -> (0 < width e)%nat.
Proof. intros He. each_elem He; elem_simpl; lia. Qed.

Lemma element_bytes h e bs :
  In e elems -> List.length bs = width e -> Forall is_byte bs ->
  bytes_of (width e) (elem_value h e bs)
  = match h with LittleEndian => bs | BigEndian => rev bs end.
Proof.
  intros He Hlen Hbytes.
  assert (Hd : bytes_of (width e) (decode h bs)
               = match h with LittleEndian => bs | BigEndian => rev bs end).
  { destruct h; cbn [decode].
    - rewrite <- Hlen. now apply bytes_of_le_value.
    - rewrite <- Hlen, <- length_rev. apply bytes_of_le_value.
      now apply Forall_rev. }
  unfold elem_value. destruct (signed e); [|exact Hd].
  rewrite bytes_of_swrap; [exact Hd | now apply width_pos].
Qed.

Lemma element_in_range h e bs :
  In e elems -> List.length bs = width e -> Forall is_byte bs ->
  in_range e (elem_value h e bs).
Proof.
  intros He Hlen Hbytes.
  unfold in_range, elem_value, bits. destruct (signed e).
  - apply swrap_range. pose proof (width_pos e He). lia.
  - unfold urange. rewrite <- Hlen.
    destruct h; cbn [decode]; [now apply le_value_range|].
    rewrite <- length_rev. apply le_value_range. now apply Forall_rev.
Qed.

(** Whatever the host order, what is written back is the element's
    bytes in reverse order. *)
Lemma element_swapped h e bs :
  In e elems -> List.length bs = width e -> Forall is_byte bs ->
  encode h (width e) (swap e (elem_value h e bs)) = rev bs.
Proof.
  intros He Hlen Hbytes.
  pose proof (element_bytes h e bs He Hlen Hbytes) as Hb.
  pose proof (element_in_range h e bs He Hlen Hbytes) as Hr.
  destruct h; cbn [encode]; rewrite (swap_bytes e _ He Hr), Hb.
  - reflexivity.
  - now rewrite !rev_involutive.
Qed.

Lemma Forall_firstn_skipn (P : Z -> Prop) n l :
  Forall P l -> Forall P (firstn n l) /\ Forall P (skipn n l).
Proof.
  intros H. rewrite <- (firstn_skipn n l) in H. now apply Forall_app in H.
Qed.

Lemma loop_body_reverses h e p N i m :
  In e elems -> Forall is_byte m ->
  ssize_ok (i * N) = true ->
  in_bounds m (p + i * N * Z.of_nat (width e)) (width e) = true ->
  let a := Z.to_nat (p + i * N * Z.of_nat (width e)) in
  loop_body h e p N i m
  = Ok (firstn a m ++ rev (firstn (width e) (skipn a m)) ++ skipn (a + width e) m).
Proof.
  intros He Hm Hs Hb a. unfold loop_body, read_elem, write_elem, load, store.
  rewrite Hs, Hb. cbn [bind]. fold a. do 3 f_equal.
  set (bs := firstn (width e) (skipn a m)).
  apply (element_swapped h e bs); [assumption| |].
  - unfold bs. rewrite length_firstn, length_skipn.
    unfold in_bounds in Hb. apply andb_prop in Hb as [H0 H1].
    apply Z.leb_le in H0, H1. subst a. lia.
  - unfold bs. apply Forall_firstn_skipn, Forall_firstn_skipn, Hm.
Qed.

(* ================================================================= *)
(** ** makeNative: the loop with a step of one element *)

Lemma firstn_length_app (l r : list Z) : firstn (List.length l) (l ++ r) = l.
Proof.
  now rewrite firstn_app, firstn_all, Nat.sub_diag, firstn_O, app_nil_r.
Qed.

Lemma skipn_length_app (l r : list Z) : skipn (List.length l) (l ++ r) = r.
Proof.
  now rewrite skipn_app, skipn_all, Nat.sub_diag, skipn_O.
Qed.

(** Reversing the run [c] where it lies in [front ++ c ++ rest]. *)
Lemma splice_rev (front c rest : list Z) :
  firstn (List.length front) (front ++ c ++ rest)
  ++ rev (firstn (List.length c) (skipn (List.length front) (front ++ c ++ rest)))
  ++ skipn (List.length front + List.length c) (front ++ c ++ rest)
  = front ++ rev c ++ rest.
Proof.
  rewrite firstn_length_app, skipn_length_app, firstn_length_app.
  rewrite <- length_app, (app_assoc front c rest), skipn_length_app. reflexivity.
Qed.

(** With [N = 1] the loop walks a contiguous run of elements and
    reverses the bytes of each one; [front] is the memory before the
    element at index [i], [todo] the elements from index [i] on. *)
Lemma for_loop_contiguous h e p :
  In e elems ->
  forall todo front post i,
    Forall is_byte (front ++ List.concat todo ++ post) ->
    Forall (fun c => List.length c = width e) todo ->
    Z.of_nat (List.length front) = p + i * Z.of_nat (width e) ->
    0 <= i -> i + Z.of_nat (List.length todo) <= 2 ^ 63 ->
    for_loop (loop_body h e p 1) (List.length todo) i (front ++ List.concat todo ++ post)
    = Ok (front ++ List.concat (map (@rev Z) todo) ++ post).
Proof.
  intros He. induction todo as [|c todo IH]; intros front post i Hm Hc Hfront Hi Hmax.
  - reflexivity.
  - cbn [List.length for_loop List.concat map].
    apply Forall_cons_iff in Hc as [Hlen Hc].
    cbn [List.length] in Hmax. cbn [List.concat] in Hm.
    rewrite <- app_assoc in Hm |- *.
    assert (Ha : Z.to_nat (p + i * 1 * Z.of_nat (width e)) = List.length front) by lia.
    rewrite loop_body_reverses; try assumption.
    + cbv zeta. rewrite Ha, <- Hlen, splice_rev. cbn [bind].
      rewrite (app_assoc front (rev c)), <- (app_assoc (rev c)), (app_assoc front (rev c)).
      apply IH; try assumption; try lia.
      * rewrite <- app_assoc.
        repeat rewrite Forall_app in *. intuition auto using Forall_rev.
      * rewrite length_app, length_rev, Hlen. lia.
    + unfold ssize_ok. apply andb_true_intro. split; [apply Z.leb_le|apply Z.ltb_lt]; lia.
    + unfold in_bounds. apply andb_true_intro.
      split; apply Z.leb_le; [lia|].
      rewrite !length_app, Hlen. lia.
Qed.

(** The case in which the code is right: a view that is not native,
    whose [shape[0] / itemsize] is 1 and whose elements are contiguous.
    Every element has its bytes reversed, and nothing else changes. *)
Lemma makeNative_elem_contiguous e h st s0 sh front todo post :
  In e elems ->
  isNative h st = Ok false ->
  shape (array st) = s0 :: sh ->
  itemsize (array st) <> 0 ->
  swrap 32 (Z.quot s0 (itemsize (array st))) = 1 ->
  heap st = front ++ List.concat todo ++ post ->
  Z.of_nat (List.length front) = ptr (array st) ->
  size (array st) = Z.of_nat (List.length todo) ->
  Forall (fun c => List.length c = width e) todo ->
  Forall is_byte (heap st) ->
  Z.of_nat (List.length todo) <= 2 ^ 63 ->
  makeNative_elem e h st
  = Ok {| array := array st; heap := front ++ List.concat (map (@rev Z) todo) ++ post |}.
Proof.
  intros He Hn Hsh Hi HN Hheap Hptr Hsize Hc Hm Hmax.
  unfold makeNative_elem, request. rewrite Hn. cbn [bind].
  rewrite Hsh. cbn [bind]. apply Z.eqb_neq in Hi. rewrite Hi, HN, Hsize, Nat2Z.id.
  rewrite Hheap in *.
  rewrite (for_loop_contiguous h e (ptr (array st)) He); try assumption; try lia.
  reflexivity.
Qed.

(* ================================================================= *)
(** ** makeNative: the native case and the one-byte overloads *)

Lemma makeNative_elem_native e h st :
  isNative h st = Ok true -> makeNative_elem e h st = Ok st.
Proof. intros H. unfold makeNative_elem. now rewrite H. Qed.

Lemma repeat_call_fixed f n st : f st = Ok st -> repeat_call f n st = Ok st.
Proof.
  intros H. induction n as [|n IH]; cbn [repeat_call]; [reflexivity|].
  now rewrite H.
Qed.

(** A tag that names the host's own order makes every call a no-op. *)
Lemma makeNative_elem_own_order e h st rest :
  format (array st) = String (tag_char h) rest ->
  makeNative_elem e h st = Ok st.
Proof.
  intros H. apply makeNative_elem_native.
  rewrite (isNative_tagged h st h rest H). now destruct h.
Qed.

(** C6.  When [isNative] reports that the declared byte order is the
    host's, every overload of [makeNative] returns with the state as it
    was, memory included, and so does any number of calls in a row. *)
Theorem makeNative_native_noop (f : endian -> state -> result state)
  (h : endian) (st : state) (n : nat) :
  In f makeNative_overloads -> isNative h st = Ok true ->
  f h st = Ok st /\ repeat_call (f h) n st = Ok st.
Proof.
  intros Hf Hn.
  assert (H : f h st = Ok st).
  { unfold makeNative_overloads in Hf. cbn [In] in Hf.
    repeat (destruct Hf as [Hf|Hf]; [subst f|]); try contradiction;
      first [ reflexivity | now apply makeNative_elem_native ]. }
  split; [assumption | now apply repeat_call_fixed].
Qed.

Lemma makeNative_native_noop_witness :
  makeNative_uint16 LittleEndian
    {| array := view1 0 3 2 2 "<H"; heap := [1; 2; 3; 4; 5; 6] |}
  = Ok {| array := view1 0 3 2 2 "<H"; heap := [1; 2; 3; 4; 5; 6] |}
  /\ repeat_call (makeNative_uint16 LittleEndian) 2
       {| array := view1 0 3 2 2 "<H"; heap := [1; 2; 3; 4; 5; 6] |}
     = Ok {| array := view1 0 3 2 2 "<H"; heap := [1; 2; 3; 4; 5; 6] |}.
Proof.
  apply (makeNative_native_noop makeNative_uint16 LittleEndian
           {| array := view1 0 3 2 2 "<H"; heap := [1; 2; 3; 4; 5; 6] |} 2).
  - unfold makeNative_overloads. cbn [In]. auto.
  - vm_compute. reflexivity.
Defined.

(** C7.  The overloads for [uint8_t] and [int8_t] return the state as it
    was on every host and for every array, whatever its format says; no
    byte of memory changes, however often they are called. *)
Theorem makeNative_8bit_identity (h : endian) (st : state) (n : nat) :
  makeNative_uint8 h st = Ok st
  /\ makeNative_int8 h st = Ok st
  /\ repeat_call (makeNative_uint8 h) n st = Ok st
  /\ repeat_call (makeNative_int8 h) n st = Ok st.
Proof.
  repeat split; try reflexivity; now apply repeat_call_fixed.
Qed.

(* ================================================================= *)
(** ** makeNative: the worked example and a second call *)

(** C8.  On a big-endian host, three contiguous [uint16_t] elements
    tagged ['<'] with bytes [01 02 03 04 05 06] become [02 01 04 03 06
    05], which the host reads as 0x0201, 0x0403 and 0x0605. *)
Theorem makeNative_uint16_big_endian_example :
  exists st',
    makeNative_uint16 BigEndian
      {| array := view1 0 3 2 2 "<H"; heap := [1; 2; 3; 4; 5; 6] |} = Ok st'
    /\ heap st' = [2; 1; 4; 3; 6; 5]
    /\ map (fun k => load BigEndian 2 (heap st') (2 * k)) [0; 1; 2]
       = [Ok 0x0201; Ok 0x0403; Ok 0x0605].
Proof.
  eexists. split; [vm_compute; reflexivity|]. split; vm_compute; reflexivity.
Qed.

(** C9.  A second call on an array whose tag still says non-native is
    not a no-op: after a first call the descriptor, and with it the tag,
    is as before, [isNative] still answers [false], and a second call
    changes the bytes again. *)
Theorem makeNative_twice_swaps_back :
  exists st st1 st2,
    makeNative_uint16 BigEndian st = Ok st1
    /\ array st1 = array st
    /\ isNative BigEndian st1 = Ok false
    /\ makeNative_uint16 BigEndian st1 = Ok st2
    /\ heap st2 <> heap st1.
Proof.
  exists {| array := view1 0 3 2 2 "<H"; heap := [1; 2; 3; 4; 5; 6] |}.
  do 2 eexists.
  split; [vm_compute; reflexivity|]. split; [reflexivity|].
  split; [vm_compute; reflexivity|].
  split; [vm_compute; reflexivity|]. cbn. discriminate.
Qed.

(* ================================================================= *)
(** ** makeNative: the element step *)

(** C1.  The loop steps by [shape[0] / itemsize] elements, not by the
    stride, so it does not visit the elements of every non-native
    buffer once each.  On a big-endian host, with arrays tagged ['<']:
    - two [uint16_t] elements 4 bytes apart: the step is 1 element, the
      two padding bytes after element 0 are swapped and element 1 is
      not;
    - four contiguous [uint16_t] elements at the start of a 16-byte
      block: the step is 2 elements, elements 1 and 3 are not swapped
      and two places after the view are;
    - two contiguous [uint32_t] elements: the step is 0, element 0 is
      swapped twice and element 1 never.
    In each case the element-by-stride pass of the specification gives
    another memory. *)
Theorem makeNative_step_is_not_the_stride :
  (makeNative_uint16 BigEndian
     {| array := view1 0 2 2 4 "<H"; heap := [1; 2; 3; 4; 5; 6; 7; 8] |}
   = Ok {| array := view1 0 2 2 4 "<H"; heap := [2; 1; 4; 3; 5; 6; 7; 8] |}
   /\ spec_normalize uint16_t BigEndian
        {| array := view1 0 2 2 4 "<H"; heap := [1; 2; 3; 4; 5; 6; 7; 8] |}
      = Ok {| array := view1 0 2 2 4 "<H"; heap := [2; 1; 3; 4; 6; 5; 7; 8] |})
  /\ (makeNative_uint16 BigEndian
        {| array := view1 0 4 2 2 "<H";
           heap := [1; 2; 3; 4; 5; 6; 7; 8; 9; 10; 11; 12; 13; 14; 15; 16] |}
      = Ok {| array := view1 0 4 2 2 "<H";
              heap := [2; 1; 3; 4; 6; 5; 7; 8; 10; 9; 11; 12; 14; 13; 15; 16] |}
      /\ spec_normalize uint16_t BigEndian
           {| array := view1 0 4 2 2 "<H";
              heap := [1; 2; 3; 4; 5; 6; 7; 8; 9; 10; 11; 12; 13; 14; 15; 16] |}
         = Ok {| array := view1 0 4 2 2 "<H";
                 heap := [2; 1; 4; 3; 6; 5; 8; 7; 9; 10; 11; 12; 13; 14; 15; 16] |})
  /\ (makeNative_uint32 BigEndian
        {| array := view1 0 2 4 4 "<I"; heap := [1; 2; 3; 4; 5; 6; 7; 8] |}
      = Ok {| array := view1 0 2 4 4 "<I"; heap := [1; 2; 3; 4; 5; 6; 7; 8] |}
      /\ spec_normalize uint32_t BigEndian
           {| array := view1 0 2 4 4 "<I"; heap := [1; 2; 3; 4; 5; 6; 7; 8] |}
         = Ok {| array := view1 0 2 4 4 "<I"; heap := [4; 3; 2; 1; 8; 7; 6; 5] |}).
Proof. repeat split; vm_compute; reflexivity. Qed.

(** The same four elements when the memory block ends with the view:
    the third access is outside it. *)
Lemma makeNative_uint16_four_elements_overrun :
  makeNative_uint16 BigEndian
    {| array := view1 0 4 2 2 "<H"; heap := [1; 2; 3; 4; 5; 6; 7; 8] |}
  = Undefined.
Proof. vm_compute. reflexivity. Qed.

(** C10.  No call changes the descriptor; but the bytes a call changes
    are not always bytes of the view.  Four contiguous [uint16_t]
    elements at the start of a 16-byte block occupy addresses 0 to 7;
    on a big-endian host a call on that view, tagged ['<'], returns
    with the descriptor unchanged and with the bytes at addresses 8, 9,
    12 and 13 exchanged. *)
Theorem makeNative_writes_outside_the_view :
  exists st',
    makeNative_uint16 BigEndian
      {| array := view1 0 4 2 2 "<H";
         heap := [1; 2; 3; 4; 5; 6; 7; 8; 9; 10; 11; 12; 13; 14; 15; 16] |}
    = Ok st'
    /\ array st' = view1 0 4 2 2 "<H"
    /\ data_region (view1 0 4 2 2 "<H") = [0; 1; 2; 3; 4; 5; 6; 7]
    /\ skipn 8 (heap st') = [10; 9; 11; 12; 14; 13; 15; 16].
Proof.
  eexists. split; [vm_compute; reflexivity|]. repeat split; vm_compute; reflexivity.
Qed.

(* ================================================================= *)
(** ** Further properties: the format tag *)

(** X1.  A format whose first character is neither ['<'] nor ['>'] (a
    bare type code such as [H], or one prefixed by [=], [@], [!] or [|])
    counts as native on every host, so every overload leaves the state
    as it was. *)
Theorem makeNative_untagged_noop (f : endian -> state -> result state)
  (h : endian) (st : state) (ch : ascii) (rest : string) :
  In f makeNative_overloads ->
  format (array st) = String ch rest ->
  ch <> "<"%char -> ch <> ">"%char ->
  isNative h st = Ok true /\ f h st = Ok st.
Proof.
  intros Hf Hfmt Hlt Hgt.
  pose proof (isNative_untagged h st ch rest Hfmt Hlt Hgt) as Hn.
  split; [assumption|].
  unfold makeNative_overloads in Hf. cbn [In] in Hf.
  repeat (destruct Hf as [Hf|Hf]; [subst f|]); try contradiction;
    first [ reflexivity | now apply makeNative_elem_native ].
Qed.

Lemma makeNative_untagged_noop_witness :
  isNative BigEndian {| array := view1 0 2 4 4 "!I"; heap := [1; 2; 3; 4; 5; 6; 7; 8] |}
  = Ok true
  /\ makeNative_uint32 BigEndian
       {| array := view1 0 2 4 4 "!I"; heap := [1; 2; 3; 4; 5; 6; 7; 8] |}
     = Ok {| array := view1 0 2 4 4 "!I"; heap := [1; 2; 3; 4; 5; 6; 7; 8] |}.
Proof.
  apply (makeNative_untagged_noop makeNative_uint32 BigEndian
           {| array := view1 0 2 4 4 "!I"; heap := [1; 2; 3; 4; 5; 6; 7; 8] |}
           "!"%char "I").
  - unfold makeNative_overloads. cbn [In]. auto 10.
  - reflexivity.
  - discriminate.
  - discriminate.
Defined.

(** X2.  On an empty format string [format.at(0)] throws
    [std::out_of_range]: [isNative] and each of the six overloads that
    call it end with that exception on every host, before any access to
    memory (whatever the rest of the descriptor, the memory and the
    element type are); the two one-byte overloads do not call
    [isNative] and return. *)
Theorem makeNative_empty_format (e : elem) (h : endian) (st : state) :
  format (array st) = EmptyString ->
  isNative h st = OutOfRange
  /\ makeNative_elem e h st = OutOfRange
  /\ makeNative_uint8 h st = Ok st
  /\ makeNative_int8 h st = Ok st.
Proof.
  intros Hfmt.
  assert (Hn : isNative h st = OutOfRange)
    by (unfold isNative, request; now rewrite Hfmt).
  repeat split; try assumption.
  unfold makeNative_elem. now rewrite Hn.
Qed.

Lemma makeNative_empty_format_witness :
  isNative LittleEndian {| array := view1 0 2 8 8 EmptyString; heap := [] |} = OutOfRange
  /\ makeNative_uint64 LittleEndian {| array := view1 0 2 8 8 EmptyString; heap := [] |}
     = OutOfRange
  /\ makeNative_uint8 LittleEndian {| array := view1 0 2 8 8 EmptyString; heap := [] |}
     = Ok {| array := view1 0 2 8 8 EmptyString; heap := [] |}
  /\ makeNative_int8 LittleEndian {| array := view1 0 2 8 8 EmptyString; heap := [] |}
     = Ok {| array := view1 0 2 8 8 EmptyString; heap := [] |}.
Proof.
  apply (makeNative_empty_format uint64_t LittleEndian
           {| array := view1 0 2 8 8 EmptyString; heap := [] |}).
  reflexivity.
Defined.

(* ================================================================= *)
(** ** Further properties: what a call keeps *)

Lemma encode_bytes h n v : Forall is_byte (encode h n v).
Proof.
  assert (H : Forall is_byte (bytes_of n v)).
  { unfold bytes_of. apply Forall_forall. intros b Hb.
    apply in_map_iff in Hb as (k & <- & _). apply byte_at_range. }
  destruct h; cbn [encode]; [assumption | now apply Forall_rev].
Qed.

Lemma store_bytes h n m a v m' :
  store h n m a v = Ok m' -> Forall is_byte m -> Forall is_byte m'.
Proof.
  unfold store. intros H Hm. destruct (in_bounds m a n); [|discriminate].
  injection H as <-.
  repeat rewrite Forall_app. repeat split.
  - now apply Forall_firstn_skipn.
  - apply encode_bytes.
  - now apply Forall_firstn_skipn.
Qed.

Lemma loop_body_bytes h e p N i m m' :
  loop_body h e p N i m = Ok m' -> Forall is_byte m -> Forall is_byte m'.
Proof.
  unfold loop_body, read_elem, write_elem. intros H.
  destruct (ssize_ok (i * N)); [|discriminate].
  destruct (load h (width e) m _); cbn [bind] in H; try discriminate.
  intros Hm. eapply store_bytes; eassumption.
Qed.

(** An invariant of the loop is an invariant of its body. *)
Lemma for_loop_invariant (P : memory -> Prop) body
  (Hb : forall i m m', body i m = Ok m' -> P m -> P m') n :
  forall i m m', for_loop body n i m = Ok m' -> P m -> P m'.
Proof.
  induction n as [|n IH]; intros i m m' H Hm; cbn [for_loop] in H.
  - now injection H as <-.
  - destruct (body i m) as [m1| |] eqn:E; cbn [bind] in H; try discriminate.
    apply (IH _ _ _ H). now apply Hb with (i := i) (m := m).
Qed.

Lemma makeNative_elem_bytes e h st st' :
  makeNative_elem e h st = Ok st' ->
  Forall is_byte (heap st) -> Forall is_byte (heap st').
Proof.
  unfold makeNative_elem. intros H.
  destruct (isNative h st) as [[|]| |]; cbn [bind] in H; try discriminate.
  - now injection H as <-.
  - destruct (shape (request st)); cbn [bind] in H; try discriminate.
    destruct (itemsize (request st) =? 0); try discriminate.
    destruct (for_loop _ _ _ _) as [m| |] eqn:E; cbn [bind] in H; try discriminate.
    injection H as <-. cbn [heap]. revert E.
    apply for_loop_invariant. intros i m0 m1. apply loop_body_bytes.
Qed.

(** X3.  Whatever a call of any of the eight overloads does, if it
    returns then the descriptor is the one it was given, the memory has
    the size it had, and memory that held bytes still holds bytes. *)
Theorem makeNative_keeps_shape (f : endian -> state -> result state)
  (h : endian) (st st' : state) :
  In f makeNative_overloads -> f h st = Ok st' ->
  array st' = array st
  /\ List.length (heap st') = List.length (heap st)
  /\ (Forall is_byte (heap st) -> Forall is_byte (heap st')).
Proof.
  intros Hf H. unfold makeNative_overloads in Hf. cbn [In] in Hf.
  repeat (destruct Hf as [Hf|Hf]; [subst f|]); try contradiction;
    try (injection H as <-; now auto);
    (destruct (makeNative_elem_frame _ _ _ _ H) as [Ha Hl];
     repeat split; try assumption; now apply (makeNative_elem_bytes _ _ _ _ H)).
Qed.

Lemma makeNative_keeps_shape_witness :
  array {| array := view1 0 3 2 2 "<H"; heap := [2; 1; 4; 3; 6; 5] |}
  = array {| array := view1 0 3 2 2 "<H"; heap := [1; 2; 3; 4; 5; 6] |}
  /\ List.length (heap {| array := view1 0 3 2 2 "<H"; heap := [2; 1; 4; 3; 6; 5] |})
     = List.length (heap {| array := view1 0 3 2 2 "<H"; heap := [1; 2; 3; 4; 5; 6] |})
  /\ (Forall is_byte (heap {| array := view1 0 3 2 2 "<H"; heap := [1; 2; 3; 4; 5; 6] |}) ->
      Forall is_byte (heap {| array := view1 0 3 2 2 "<H"; heap := [2; 1; 4; 3; 6; 5] |})).
Proof.
  apply (makeNative_keeps_shape makeNative_uint16 BigEndian
           {| array := view1 0 3 2 2 "<H"; heap := [1; 2; 3; 4; 5; 6] |}
           {| array := view1 0 3 2 2 "<H"; heap := [2; 1; 4; 3; 6; 5] |}).
  - unfold makeNative_overloads. cbn [In]. auto.
  - vm_compute. reflexivity.
Defined.

(* ================================================================= *)
(** ** Further properties: where the loop writes *)

Lemma store_frame h n m a v m' k :
  store h n m a v = Ok m' ->
  ~ (a <= Z.of_nat k < a + Z.of_nat n) ->
  nth k m' 0 = nth k m 0.
Proof.
  unfold store, in_bounds. intros H Hk.
  destruct (Z.leb_spec 0 a); [|discriminate].
  destruct (Z.leb_spec (a + Z.of_nat n) (Z.of_nat (List.length m))); [|discriminate].
  cbn [andb] in H. injection H as <-.
  destruct (Nat.lt_ge_cases k (Z.to_nat a)) as [Hlt|Hge].
  - rewrite app_nth1 by (rewrite length_firstn; lia).
    rewrite nth_firstn. apply Nat.ltb_lt in Hlt. now rewrite Hlt.
  - rewrite app_nth2 by (rewrite length_firstn; lia).
    rewrite length_firstn, Nat.min_l by lia.
    rewrite app_nth2 by (rewrite encode_length; lia).
    rewrite encode_length, nth_skipn. f_equal. lia.
Qed.

Lemma loop_body_frame h e p N i m m' k :
  loop_body h e p N i m = Ok m' ->
  ~ (p + i * N * Z.of_nat (width e) <= Z.of_nat k
     < p + i * N * Z.of_nat (width e) + Z.of_nat (width e)) ->
  nth k m' 0 = nth k m 0.
Proof.
  unfold loop_body, read_elem, write_elem. intros H Hk.
  destruct (ssize_ok (i * N)); [|discriminate].
  destruct (load h (width e) m _); cbn [bind] in H; try discriminate.
  now apply store_frame with (k := k) in H.
Qed.

Lemma for_loop_frame h e p N k n :
  forall i m m',
    for_loop (loop_body h e p N) n i m = Ok m' ->
    (forall j, i <= j < i + Z.of_nat n ->
       ~ (p + j * N * Z.of_nat (width e) <= Z.of_nat k
          < p + j * N * Z.of_nat (width e) + Z.of_nat (width e))) ->
    nth k m' 0 = nth k m 0.
Proof.
  induction n as [|n IH]; intros i m m' H Hk; cbn [for_loop] in H.
  - now injection H as <-.
  - destruct (loop_body h e p N i m) as [m1| |] eqn:E; cbn [bind] in H;
      try discriminate.
    rewrite (IH _ _ _ H) by (intros j Hj; apply Hk; lia).
    apply (loop_body_frame _ _ _ _ _ _ _ _ E). apply Hk. lia.
Qed.

(** X4.  A call that returns has changed no byte outside the elements
    the loop visits, which are [array_ptr[j * N]] for [0 <= j < size]
    with [N = shape[0] / itemsize]: every other address holds what it
    held. *)
Theorem makeNative_writes_only_visited (e : elem) (h : endian)
  (st st' : state) (k : nat) :
  makeNative_elem e h st = Ok st' ->
  ~ visited e (array st) (Z.of_nat k) ->
  nth k (heap st') 0 = nth k (heap st) 0.
Proof.
  unfold makeNative_elem, request. intros H Hk.
  destruct (isNative h st) as [[|]| |]; cbn [bind] in H; try discriminate.
  - now injection H as <-.
  - destruct (shape (array st)) as [|s0 sh] eqn:Hsh; cbn [bind] in H;
      try discriminate.
    destruct (itemsize (array st) =? 0); try discriminate.
    destruct (for_loop _ _ _ _) as [m| |] eqn:E; cbn [bind] in H; try discriminate.
    injection H as <-. cbn [heap].
    apply (for_loop_frame _ _ _ _ _ _ _ _ _ E).
    intros j Hj Hin. apply Hk. exists j. unfold step_of. rewrite Hsh. cbn [hd].
    split; [lia | exact Hin].
Qed.

Lemma makeNative_writes_only_visited_witness :
  nth 5 (heap {| array := view1 0 2 2 4 "<H"; heap := [2; 1; 4; 3; 5; 6; 7; 8] |}) 0
  = nth 5 (heap {| array := view1 0 2 2 4 "<H"; heap := [1; 2; 3; 4; 5; 6; 7; 8] |}) 0.
Proof.
  apply (makeNative_writes_only_visited uint16_t BigEndian
           {| array := view1 0 2 2 4 "<H"; heap := [1; 2; 3; 4; 5; 6; 7; 8] |}
           {| array := view1 0 2 2 4 "<H"; heap := [2; 1; 4; 3; 5; 6; 7; 8] |} 5).
  - vm_compute. reflexivity.
  - intros [j [Hj H]].
    change (step_of (array {| array := view1 0 2 2 4 "<H";
                              heap := [1; 2; 3; 4; 5; 6; 7; 8] |})) with 1 in H.
    cbn in Hj, H. lia.
Defined.

(* ================================================================= *)
(** ** Further properties: one element, on either host *)

Lemma loop_body_rev_at h e p N i m :
  In e elems -> Forall is_byte m -> ssize_ok (i * N) = true ->
  loop_body h e p N i m
  = if in_bounds m (p + i * N * Z.of_nat (width e)) (width e)
    then Ok (rev_at (Z.to_nat (p + i * N * Z.of_nat (width e))) (width e) m)
    else Undefined.
Proof.
  intros He Hm Hs.
  destruct (in_bounds m _ (width e)) eqn:Hb.
  - now apply loop_body_reverses.
  - unfold loop_body, read_elem, load. now rewrite Hs, Hb.
Qed.

(** X5.  One pass of the loop body on memory that holds bytes: if the
    element [array_ptr[i * N]] lies inside memory, its bytes are put in
    reverse order where they are, whether the host is little- or
    big-endian and whether the element type is signed or not; if it
    does not, the access is undefined. *)
Theorem loop_body_reverses_in_place (h : endian) (e : elem) (p N i : Z)
  (m : memory) :
  In e elems -> Forall is_byte m -> ssize_ok (i * N) = true ->
  loop_body h e p N i m
  = if in_bounds m (p + i * N * Z.of_nat (width e)) (width e)
    then Ok (rev_at (Z.to_nat (p + i * N * Z.of_nat (width e))) (width e) m)
    else Undefined.
Proof.
  apply loop_body_rev_at.
Qed.

Lemma loop_body_reverses_in_place_witness :
  loop_body LittleEndian int32_t 0 1 1 [1; 2; 3; 4; 5; 6; 7; 255]
  = if in_bounds [1; 2; 3; 4; 5; 6; 7; 255]
         (0 + 1 * 1 * Z.of_nat (width int32_t)) (width int32_t)
    then Ok (rev_at (Z.to_nat (0 + 1 * 1 * Z.of_nat (width int32_t)))
               (width int32_t) [1; 2; 3; 4; 5; 6; 7; 255])
    else Undefined.
Proof.
  apply (loop_body_reverses_in_place LittleEndian int32_t 0 1 1
           [1; 2; 3; 4; 5; 6; 7; 255]).
  - unfold elems. cbn [In]. auto 10.
  - repeat constructor; unfold is_byte; lia.
  - reflexivity.
Defined.

Lemma rev_at_length a w m : List.length (rev_at a w m) = List.length m.
Proof.
  unfold rev_at.
  rewrite !length_app, length_rev, !length_firstn, !length_skipn. lia.
Qed.

Lemma rev_at_bytes a w m : Forall is_byte m -> Forall is_byte (rev_at a w m).
Proof.
  intros Hm. unfold rev_at. repeat rewrite Forall_app. repeat split.
  - now apply Forall_firstn_skipn.
  - apply Forall_rev. apply Forall_firstn_skipn, Forall_firstn_skipn, Hm.
  - now apply Forall_firstn_skipn.
Qed.

(** Any memory splits around the [w] bytes at [a]. *)
Lemma split_at a w (m : memory) :
  (a + w <= List.length m)%nat ->
  exists front c rest,
    m = front ++ c ++ rest /\ List.length front = a /\ List.length c = w.
Proof.
  intros H. exists (firstn a m), (firstn w (skipn a m)), (skipn w (skipn a m)).
  rewrite !firstn_skipn. repeat split.
  - rewrite length_firstn. lia.
  - rewrite length_firstn, length_skipn. lia.
Qed.

Lemma rev_at_involutive a w m :
  (a + w <= List.length m)%nat -> rev_at a w (rev_at a w m) = m.
Proof.
  intros H. destruct (split_at a w m H) as (front & c & rest & -> & <- & <-).
  unfold rev_at. rewrite splice_rev.
  replace (List.length c) with (List.length (rev c)) by apply length_rev.
  now rewrite splice_rev, rev_involutive.
Qed.

(** With [N = 0] every pass is on element 0. *)
Lemma for_loop_step_zero h e p n :
  In e elems ->
  forall i m,
    Forall is_byte m -> in_bounds m p (width e) = true ->
    for_loop (loop_body h e p 0) n i m
    = Ok (if Nat.even n then m else rev_at (Z.to_nat p) (width e) m).
Proof.
  intros He. induction n as [|n IH]; intros i m Hm Hb; [reflexivity|].
  cbn [for_loop].
  assert (Hp : p + i * 0 * Z.of_nat (width e) = p) by lia.
  rewrite loop_body_rev_at, Hp, Hb by (try assumption; now rewrite Z.mul_0_r).
  cbn [bind].
  assert (Hle : (Z.to_nat p + width e <= List.length m)%nat).
  { unfold in_bounds in Hb. apply andb_prop in Hb as [H0 H1].
    apply Z.leb_le in H0, H1. lia. }
  rewrite IH.
  - rewrite Nat.even_succ, <- Nat.negb_even, rev_at_involutive by assumption.
    now destruct (Nat.even n).
  - now apply rev_at_bytes.
  - unfold in_bounds in *. now rewrite rev_at_length.
Qed.

(* ================================================================= *)
(** ** Further properties: whole calls *)

Lemma state_eta (st : state) : {| array := array st; heap := heap st |} = st.
Proof. now destruct st. Qed.

Lemma quot_one a b : 0 < b <= a -> a < 2 * b -> Z.quot a b = 1.
Proof.
  intros H1 H2. rewrite Z.quot_div_nonneg by lia.
  symmetry. apply Z.div_unique with (r := a - b); lia.
Qed.

(** X6.  Where the step is right.  If [shape[0] / itemsize] is 1, that
    is [itemsize <= shape[0] < 2 * itemsize], and the [size] elements
    lie one after the other from [ptr], a call on a view that is not
    native puts the bytes of every element in reverse order and changes
    nothing before, between or after them; the descriptor stays. *)
Theorem makeNative_contiguous (e : elem) (h : endian) (st : state)
  (s0 : Z) (sh : list Z) (front : memory) (todo : list (list Z)) (post : memory) :
  In e elems ->
  isNative h st = Ok false ->
  shape (array st) = s0 :: sh ->
  0 < itemsize (array st) <= s0 -> s0 < 2 * itemsize (array st) ->
  heap st = front ++ List.concat todo ++ post ->
  Z.of_nat (List.length front) = ptr (array st) ->
  size (array st) = Z.of_nat (List.length todo) ->
  Forall (fun c => List.length c = width e) todo ->
  Forall is_byte (heap st) ->
  Z.of_nat (List.length todo) <= 2 ^ 63 ->
  makeNative_elem e h st
  = Ok {| array := array st;
          heap := front ++ List.concat (map (@rev Z) todo) ++ post |}.
Proof.
  intros He Hn Hsh Hi Hs0 Hheap Hptr Hsize Hc Hm Hmax.
  apply makeNative_elem_contiguous with (s0 := s0) (sh := sh); try assumption.
  - lia.
  - now rewrite quot_one.
Qed.

Lemma makeNative_contiguous_witness :
  makeNative_elem int16_t LittleEndian
    {| array := view1 1 3 2 2 ">h"; heap := [9; 1; 2; 3; 4; 5; 6; 7] |}
  = Ok {| array := array {| array := view1 1 3 2 2 ">h";
                            heap := [9; 1; 2; 3; 4; 5; 6; 7] |};
          heap := [9] ++ List.concat (map (@rev Z) [[1; 2]; [3; 4]; [5; 6]]) ++ [7] |}.
Proof.
  apply (makeNative_contiguous int16_t LittleEndian
           {| array := view1 1 3 2 2 ">h"; heap := [9; 1; 2; 3; 4; 5; 6; 7] |}
           3 [] [9] [[1; 2]; [3; 4]; [5; 6]] [7]).
  - unfold elems. cbn [In]. auto.
  - vm_compute. reflexivity.
  - reflexivity.
  - cbn. lia.
  - cbn. lia.
  - reflexivity.
  - reflexivity.
  - reflexivity.
  - repeat constructor.
  - repeat constructor; unfold is_byte; lia.
  - cbn. lia.
Defined.

(** X7.  Where the step is zero.  If [shape[0] < itemsize] (a
    [uint32_t] array of one to three elements, say) then [N] is 0 and
    every pass of the loop is on element 0: after a call on a view that
    is not native, element 0 has its bytes reversed when [size] is odd
    and is as it was when [size] is even, and no other element is
    touched. *)
Theorem makeNative_step_zero (e : elem) (h : endian) (st : state)
  (s0 : Z) (sh : list Z) :
  In e elems ->
  isNative h st = Ok false ->
  shape (array st) = s0 :: sh ->
  0 <= s0 < itemsize (array st) ->
  Forall is_byte (heap st) ->
  in_bounds (heap st) (ptr (array st)) (width e) = true ->
  makeNative_elem e h st
  = Ok {| array := array st;
          heap := if Nat.even (Z.to_nat (size (array st))) then heap st
                  else rev_at (Z.to_nat (ptr (array st))) (width e) (heap st) |}.
Proof.
  intros He Hn Hsh Hs0 Hm Hb.
  unfold makeNative_elem, request. rewrite Hn. cbn [bind]. rewrite Hsh. cbn [bind].
  assert (Hi : (itemsize (array st) =? 0) = false) by (apply Z.eqb_neq; lia).
  rewrite Hi, Z.quot_small by assumption.
  change (swrap 32 0) with 0.
  now rewrite for_loop_step_zero.
Qed.

Lemma makeNative_step_zero_witness :
  makeNative_elem uint32_t BigEndian
    {| array := view1 0 3 4 4 "<I"; heap := [1; 2; 3; 4; 5; 6; 7; 8; 9; 10; 11; 12] |}
  = Ok {| array := array {| array := view1 0 3 4 4 "<I";
                            heap := [1; 2; 3; 4; 5; 6; 7; 8; 9; 10; 11; 12] |};
          heap := if Nat.even (Z.to_nat (size (array
                       {| array := view1 0 3 4 4 "<I";
                          heap := [1; 2; 3; 4; 5; 6; 7; 8; 9; 10; 11; 12] |})))
                  then heap {| array := view1 0 3 4 4 "<I";
                               heap := [1; 2; 3; 4; 5; 6; 7; 8; 9; 10; 11; 12] |}
                  else rev_at (Z.to_nat (ptr (array
                                  {| array := view1 0 3 4 4 "<I";
                                     heap := [1; 2; 3; 4; 5; 6; 7; 8; 9; 10; 11; 12] |})))
                         (width uint32_t)
                         (heap {| array := view1 0 3 4 4 "<I";
                                  heap := [1; 2; 3; 4; 5; 6; 7; 8; 9; 10; 11; 12] |}) |}.
Proof.
  apply (makeNative_step_zero uint32_t BigEndian
           {| array := view1 0 3 4 4 "<I";
              heap := [1; 2; 3; 4; 5; 6; 7; 8; 9; 10; 11; 12] |} 3 []).
  - unfold elems. cbn [In]. auto.
  - vm_compute. reflexivity.
  - reflexivity.
  - cbn. lia.
  - repeat constructor; unfold is_byte; lia.
  - reflexivity.
Defined.



Lemma map_rev_rev (l : list (list Z)) : map (@rev Z) (map (@rev Z) l) = l.
Proof.
  rewrite map_map. rewrite <- (map_id l) at 2.
  apply map_ext. intros c. apply rev_involutive.
Qed.

Lemma Forall_concat_rev (todo : list (list Z)) :
  Forall is_byte (List.concat todo) ->
  Forall is_byte (List.concat (map (@rev Z) todo)).
Proof.
  rewrite !Forall_concat. intros H. apply Forall_map.
  revert H. apply Forall_impl. intros c. apply Forall_rev.
Qed.

(** X9.  Under the conditions of X6 a second call undoes the first:
    the tag is not updated, so the view still counts as not native, and
    two calls in a row return the state the first one was given. *)
Theorem makeNative_twice_restores (e : elem) (h : endian) (st : state)
  (s0 : Z) (sh : list Z) (front : memory) (todo : list (list Z)) (post : memory) :
  In e elems ->
  isNative h st = Ok false ->
  shape (array st) = s0 :: sh ->
  0 < itemsize (array st) <= s0 -> s0 < 2 * itemsize (array st) ->
  heap st = front ++ List.concat todo ++ post ->
  Z.of_nat (List.length front) = ptr (array st) ->
  size (array st) = Z.of_nat (List.length todo) ->
  Forall (fun c => List.length c = width e) todo ->
  Forall is_byte (heap st) ->
  Z.of_nat (List.length todo) <= 2 ^ 63 ->
  repeat_call (makeNative_elem e h) 2 st = Ok st.
Proof.
  intros He Hn Hsh Hi Hs0 Hheap Hptr Hsize Hc Hm Hmax.
  assert (H1 : swrap 32 (Z.quot s0 (itemsize (array st))) = 1)
    by now rewrite quot_one.
  assert (Hi0 : itemsize (array st) <> 0) by lia.
  cbn [repeat_call].
  rewrite (makeNative_elem_contiguous e h st s0 sh front todo post) by assumption.
  cbn [bind].
  rewrite (makeNative_elem_contiguous e h _ s0 sh front (map (@rev Z) todo) post);
    cbn [array heap]; try assumption; try reflexivity.
  - cbn [bind]. rewrite map_rev_rev, <- Hheap. now rewrite state_eta.
  - now rewrite length_map.
  - apply Forall_map. revert Hc. apply Forall_impl.
    intros c Hlen. now rewrite length_rev.
  - rewrite Hheap in Hm. repeat rewrite Forall_app in *.
    intuition auto using Forall_concat_rev.
  - now rewrite length_map.
Qed.

Lemma makeNative_twice_restores_witness :
  repeat_call (makeNative_elem uint16_t BigEndian) 2
    {| array := view1 0 3 2 2 "<H"; heap := [1; 2; 3; 4; 5; 6] |}
  = Ok {| array := view1 0 3 2 2 "<H"; heap := [1; 2; 3; 4; 5; 6] |}.
Proof.
  apply (makeNative_twice_restores uint16_t BigEndian
           {| array := view1 0 3 2 2 "<H"; heap := [1; 2; 3; 4; 5; 6] |}
           3 [] [] [[1; 2]; [3; 4]; [5; 6]] []).
  - unfold elems. cbn [In]. auto.
  - vm_compute. reflexivity.
  - reflexivity.
  - cbn. lia.
  - cbn. lia.
  - reflexivity.
  - reflexivity.
  - reflexivity.
  - repeat constructor.
  - repeat constructor; unfold is_byte; lia.
  - cbn. lia.
Defined.

(* ================================================================= *)
(** ** Further properties: the primitives as permutations *)

(** X10.  Each swap primitive is a bijection on the values of its type:
    every value is the swap of exactly one value. *)
Theorem swap_bijective (e : elem) (y : Z) :
  In e elems -> in_range e y ->
  exists x, in_range e x /\ swap e x = y
            /\ forall x', in_range e x' -> swap e x' = y -> x' = x.
Proof.
  intros He Hy. exists (swap e y). split; [now apply swap_in_range|].
  split; [now apply swap_swap|].
  intros x' Hx' <-. symmetry. now apply swap_swap.
Qed.

Lemma swap_bijective_witness :
  exists x, in_range int32_t x /\ swap int32_t x = -2
            /\ forall x', in_range int32_t x' -> swap int32_t x' = -2 -> x' = x.
Proof.
  apply (swap_bijective int32_t (-2)).
  - unfold elems. cbn [In]. auto 10.
  - unfold in_range, bits, srange. cbn. lia.
Defined.

(* ================================================================= *)
(** ** Further properties: when a call is defined *)





